(** * Airgead Banking: the year-by-year investment schedule

    A shallow embedding of [calculateSchedule] and of the input gate that
    runs before it ([readInputs], [runCalculation], [isValidInputs]), as they
    are written in [src/app.js] and in the older copy [src/unnamed/part_000].

    Numbers.  A JavaScript number is an IEEE 754 binary64 value, so balances,
    deposits, rates and interest are Rocq's primitive [float]s and [+], [*],
    [/] are the binary64 operations, rounding included.  The loop counter
    [month], the counter [year] and the argument [years] only ever hold
    integers; JavaScript computes exactly on integers below [2^53], and they
    are kept in [Z]. *)

From Stdlib Require Import String.
From Stdlib Require Import ZArith List Lia Bool Floats Permutation Sorted.
From Equations Require Import Equations.
Import ListNotations.

Open Scope Z_scope.

(** ** JavaScript number primitives used by the program *)

Module Number.

(** [Number.isNaN(v)] *)
Definition isNaN (v : float) : bool := PrimFloat.is_nan v.

(** [Number.isFinite(v)] *)
Definition isFinite (v : float) : bool := PrimFloat.is_finite v.

(** [Number.isInteger(v)]: finite, and no fractional part.  A finite
    non-zero binary64 value is [m * 2^e]. *)
Definition isInteger (v : float) : bool :=
  match Prim2SF v with
  | S754_zero _ => true
  | S754_finite _ m e =>
      if 0 <=? e then true else Z.pos m mod 2 ^ (- e) =? 0
  | S754_infinity _ | S754_nan => false
  end.

(** The mathematical integer held by an integer-valued number (the
    truncation of any other finite one). *)
Definition toZ (v : float) : Z :=
  match Prim2SF v with
  | S754_finite s m e =>
      let a := if 0 <=? e then Z.pos m * 2 ^ e else Z.pos m / 2 ^ (- e) in
      if s then - a else a
  | _ => 0
  end.

(** [v.toFixed(2)], as the number of hundredths it prints: the integer [n]
    for which [n / 100 - v] is closest to zero, the larger one on a tie
    (ECMA-262, Number.prototype.toFixed).  Meaningful for a finite
    non-negative [v]; [None] otherwise. *)
Definition toFixed2 (v : float) : option Z :=
  match Prim2SF v with
  | S754_zero _ => Some 0
  | S754_finite false m e =>
      if 0 <=? e then Some (100 * Z.pos m * 2 ^ e)
      else Some ((200 * Z.pos m + 2 ^ (- e)) / (2 * 2 ^ (- e)))
  | _ => None
  end.

End Number.

(** ** Data model *)

(** [@typedef YearSummary]: one row per simulated year. *)
Record YearSummary : Type := mkYearSummary {
  year : Z;
  yearEndBalance : float;
  yearEndInterest : float
}.

(** The variables a pass of the [for] loop reads and writes. *)
Record LoopState : Type := mkLoopState {
  openingBalance : float;
  interestSoFar : float;
  currentYear : Z;
  results : list YearSummary
}.

(** What [readInputs] returns: [{ ok: false, message }] or
    [{ ok: true, initial, monthly, rate, years }]. *)
Inductive ReadResult : Type :=
| Rejected (message : String.string)
| Accepted (initial monthly rate years : float).

(** What [runCalculation] leaves on the page: the error line, or the two
    tables. *)
Inductive CalcOutcome : Type :=
| ShowError (message : String.string)
| ShowTables (noDep dep : list YearSummary).

(** The object [getParsedInputs] returns. *)
Record ParsedInputs : Type := mkParsedInputs {
  initial : float;
  monthly : float;
  rate : float;
  inYears : float
}.

(** ** [src/app.js] *)

Module App.

(** The body of the [for] loop of [calculateSchedule], for one [month]. *)
Definition loop_body (deposit annualInterestRate : float) (month : Z)
    (s : LoopState) : LoopState :=
  let interest :=
    ((openingBalance s + deposit) * ((annualInterestRate / 100) / 12))%float in
  let interestSoFar' := (interestSoFar s + interest)%float in
  let closingBalance := ((openingBalance s + deposit) + interest)%float in
  if Z.rem month 12 =? 0 then
    mkLoopState closingBalance 0%float (currentYear s + 1)
      (results s ++
       [mkYearSummary (currentYear s) closingBalance interestSoFar'])
  else
    mkLoopState closingBalance interestSoFar' (currentYear s) (results s).

(** [for (let month = 1; month <= totalMonths; month++) { ... }], entered
    at [month]. *)
Equations? for_loop (deposit annualInterestRate : float)
    (totalMonths month : Z) (s : LoopState) : LoopState
    by wf (Z.to_nat (totalMonths + 1 - month)) lt :=
  for_loop deposit annualInterestRate totalMonths month s
    with Z_le_gt_dec month totalMonths := {
    | left _ =>
        for_loop deposit annualInterestRate totalMonths (month + 1)
          (loop_body deposit annualInterestRate month s)
    | right _ => s }.
Proof. lia. Qed.

Definition calculateSchedule
    (initialInvestment monthlyDeposit annualInterestRate : float)
    (years : Z) (withDeposit : bool) : list YearSummary :=
  let totalMonths := years * 12 in
  let deposit := if withDeposit then monthlyDeposit else 0%float in
  results
    (for_loop deposit annualInterestRate totalMonths 1
       (mkLoopState initialInvestment 0%float 1 [])).

(** [isValidInputs], the gate of the "save scenario" button. *)
Definition isValidInputs (inputs : ParsedInputs) : bool :=
  if negb (Number.isFinite (initial inputs)) || (initial inputs <? 0)%float
  then false
  else if negb (Number.isFinite (monthly inputs)) || (monthly inputs <? 0)%float
  then false
  else if negb (Number.isFinite (rate inputs)) || (rate inputs <? 0)%float
  then false
  else if negb (Number.isFinite (inYears inputs)) || (inYears inputs <=? 0)%float
  then false
  else true.

(** [money(n)]: [Number(n).toFixed(2)], in hundredths. *)
Definition money (n : float) : option Z := Number.toFixed2 n.

(** [readInputs], given the four numbers [Number(...)] made of the form's
    fields. *)
Definition readInputs (initial monthly rate years : float) : ReadResult :=
  if existsb Number.isNaN [initial; monthly; rate; years] then
    Rejected "Invalid input. Please enter numeric values."%string
  else if (initial <? 0)%float || (monthly <? 0)%float || (rate <? 0)%float then
    Rejected "Invalid input. Please enter non-negative values."%string
  else if negb (Number.isInteger years) || (years <=? 0)%float then
    Rejected
      "Invalid input. Please enter a whole number of years greater than 0."%string
  else Accepted initial monthly rate years.

(** [runCalculation]: the gate, then the core twice. *)
Definition runCalculation (initial monthly rate years : float) : CalcOutcome :=
  match readInputs initial monthly rate years with
  | Rejected message => ShowError message
  | Accepted initial monthly rate years =>
      let noDep :=
        calculateSchedule initial monthly rate (Number.toZ years) false in
      let dep :=
        calculateSchedule initial monthly rate (Number.toZ years) true in
      ShowTables noDep dep
  end.

End App.

(** ** [src/unnamed/part_000], the copy without persistence *)

Module Part000.

Definition loop_body (deposit annualInterestRate : float) (month : Z)
    (s : LoopState) : LoopState :=
  let interest :=
    ((openingBalance s + deposit) * ((annualInterestRate / 100) / 12))%float in
  let interestSoFar' := (interestSoFar s + interest)%float in
  let closingBalance := ((openingBalance s + deposit) + interest)%float in
  if Z.rem month 12 =? 0 then
    mkLoopState closingBalance 0%float (currentYear s + 1)
      (results s ++
       [mkYearSummary (currentYear s) closingBalance interestSoFar'])
  else
    mkLoopState closingBalance interestSoFar' (currentYear s) (results s).

Equations? for_loop (deposit annualInterestRate : float)
    (totalMonths month : Z) (s : LoopState) : LoopState
    by wf (Z.to_nat (totalMonths + 1 - month)) lt :=
  for_loop deposit annualInterestRate totalMonths month s
    with Z_le_gt_dec month totalMonths := {
    | left _ =>
        for_loop deposit annualInterestRate totalMonths (month + 1)
          (loop_body deposit annualInterestRate month s)
    | right _ => s }.
Proof. lia. Qed.

Definition calculateSchedule
    (initialInvestment monthlyDeposit annualInterestRate : float)
    (years : Z) (withDeposit : bool) : list YearSummary :=
  let totalMonths := years * 12 in
  let deposit := if withDeposit then monthlyDeposit else 0%float in
  results
    (for_loop deposit annualInterestRate totalMonths 1
       (mkLoopState initialInvestment 0%float 1 [])).

End Part000.

(** ** The reference simulation of the specification (section 4.1)

    Written from the specification's words, to be compared with the code. *)

Module Spec.

Record SimState : Type := mkSimState {
  simOpening : float;
  yearlyInterestAccumulator : float;
  simYear : Z;
  emitted : list YearSummary
}.

(** Step 3, for one [month]. *)
Definition month_step (deposit annualRatePercent : float)
    (st : SimState) (month : Z) : SimState :=
  let monthlyRate := ((annualRatePercent / 100) / 12)%float in
  let interest := ((simOpening st + deposit) * monthlyRate)%float in
  let acc := (yearlyInterestAccumulator st + interest)%float in
  let closingBalance := (simOpening st + deposit + interest)%float in
  if Z.eq_dec (month mod 12) 0 then
    mkSimState closingBalance 0%float (simYear st + 1)
      (emitted st ++ [mkYearSummary (simYear st) closingBalance acc])
  else mkSimState closingBalance acc (simYear st) (emitted st).

(** The months [1, 2, ..., totalMonths]. *)
Definition months (totalMonths : Z) : list Z :=
  map Z.of_nat (seq 1 (Z.to_nat totalMonths)).

Definition compute (initialBalance monthlyDeposit annualRatePercent : float)
    (years : Z) (applyDeposit : bool) : list YearSummary :=
  let totalMonths := years * 12 in
  let deposit := if applyDeposit then monthlyDeposit else 0%float in
  emitted
    (fold_left (month_step deposit annualRatePercent) (months totalMonths)
       (mkSimState initialBalance 0%float 1 [])).

End Spec.

(** ** Quantities the properties speak about

    The two expressions of the loop body, and what they give when the loop
    is unrolled; they are the vocabulary of the theorems below. *)

(** The constant [interest] of one pass, from that month's opening balance. *)
Definition month_interest (deposit annualInterestRate ob : float) : float :=
  ((ob + deposit) * ((annualInterestRate / 100) / 12))%float.

(** The constant [closingBalance] of one pass. *)
Definition month_closing (deposit annualInterestRate ob : float) : float :=
  ((ob + deposit) + month_interest deposit annualInterestRate ob)%float.

(** The opening balance [k] months after a balance [ob]. *)
Fixpoint balance_after (deposit annualInterestRate : float) (k : nat)
    (ob : float) : float :=
  match k with
  | O => ob
  | S k' =>
      balance_after deposit annualInterestRate k'
        (month_closing deposit annualInterestRate ob)
  end.

(** The [interest] values of the [n] months that follow a balance [ob]. *)
Fixpoint interests_from (deposit annualInterestRate : float) (n : nat)
    (ob : float) : list float :=
  match n with
  | O => []
  | S n' =>
      month_interest deposit annualInterestRate ob
      :: interests_from deposit annualInterestRate n'
           (month_closing deposit annualInterestRate ob)
  end.

(** [s += x] over a list, left to right, as the loop accumulates. *)
Definition sum_from (s : float) (xs : list float) : float :=
  fold_left PrimFloat.add xs s.

(** The row of year [y] (counted from 1) in closed form: the balance after
    [12 * y] months, and the interest of the twelve months of that year added
    up from [0.0]. *)
Definition year_row (deposit annualInterestRate initialInvestment : float)
    (y : nat) : YearSummary :=
  let start :=
    balance_after deposit annualInterestRate (12 * (y - 1)) initialInvestment in
  mkYearSummary (Z.of_nat y)
    (balance_after deposit annualInterestRate 12 start)
    (sum_from 0%float (interests_from deposit annualInterestRate 12 start)).

(** [n] passes of the loop body from [month] on. *)
Fixpoint run_months (deposit annualInterestRate : float) (n : nat)
    (month : Z) (s : LoopState) : LoopState :=
  match n with
  | O => s
  | S n' =>
      run_months deposit annualInterestRate n' (month + 1)
        (App.loop_body deposit annualInterestRate month s)
  end.

(** The deposit the loop uses: [withDeposit ? monthlyDeposit : 0.0]. *)
Definition deposit_of (withDeposit : bool) (monthlyDeposit : float) : float :=
  if withDeposit then monthlyDeposit else 0%float.

(** A finite number that is not negative: the domain of the three amounts. *)
Definition nonneg_finite (v : float) : bool :=
  Number.isFinite v && (0 <=? v)%float.

(** A loop state read as a state of the reference simulation. *)
Definition sim_of (s : LoopState) : Spec.SimState :=
  Spec.mkSimState (openingBalance s) (interestSoFar s) (currentYear s)
    (results s).

(** What the page prints for the first row of a schedule: the balance and
    the interest, in hundredths. *)
Definition first_row_money (rows : list YearSummary) :
    option (option Z * option Z) :=
  option_map
    (fun row => (App.money (yearEndBalance row), App.money (yearEndInterest row)))
    (hd_error rows).


(** ** Binary64 rounding, in integers

    [Prim2SF] reads a [float] as a [spec_float], and the axioms of the
    standard library say that [+], [*] and [/] are [SFadd], [SFmul] and
    [SFdiv] at precision 53 with exponents up to 1024.  The definitions
    below describe the rounding those perform, on integers. *)

(** Round to nearest, ties to even, of [m / 2^k]. *)
Definition rnd (k m : Z) : Z :=
  let q := m / 2 ^ k in
  let r2 := 2 * (m mod 2 ^ k) in
  if r2 <? 2 ^ k then q
  else if 2 ^ k <? r2 then q + 1
  else if Z.even q then q else q + 1.

(** What a shift record says of the bits shifted out of [m] after [k]
    shifts: [m = q * 2^k + rem], and where [rem] lies. *)
Definition shr_inv (m : Z) (k : Z) (mrs : shr_record) : Prop :=
  0 <= k /\ 0 <= shr_m mrs /\
  exists rem, m = shr_m mrs * 2 ^ k + rem /\ 0 <= rem < 2 ^ k /\
    match shr_r mrs, shr_s mrs with
    | false, false => rem = 0
    | false, true => 0 < 2 * rem < 2 ^ k
    | true, false => 2 * rem = 2 ^ k
    | true, true => 2 ^ k < 2 * rem
    end.

(** Shifts keep the quotient, whatever the bits already shifted out. *)
Definition shr_quot (m : Z) (k : Z) (mrs : shr_record) : Prop :=
  0 <= k /\ shr_m mrs = m / 2 ^ k.

(** The exponent of a binary64 number whose value has [z] digits before the
    binary point: [fexp prec emax]. *)
Definition fexp64 (z : Z) : Z := Z.max (z - 53) (-1074).

(** After the rounding a mantissa of 54 digits can only be [2^53]; the
    second shift halves it. *)
Definition norm64 (m1 e1 : Z) : Z * Z :=
  if m1 =? 2 ^ 53 then (2 ^ 52, e1 + 1) else (m1, e1).

(** The number of mantissa [fst me] and exponent [snd me]: a zero, a finite
    number, or [+Infinity] past the largest exponent. *)
Definition pack64 (me : Z * Z) : spec_float :=
  match fst me with
  | 0 => S754_zero false
  | Z.pos p =>
      if snd me <=? 971 then S754_finite false p (snd me)
      else S754_infinity false
  | Z.neg _ => S754_nan
  end.

(** Rounding of the positive value [m * 2^e] to binary64. *)
Definition round64 (m e : Z) : spec_float :=
  let k := fexp64 (Zdigits2 m + e) - e in
  pack64 (norm64 (rnd k m) (e + k)).

(** The order of two results, read on mantissa and exponent. *)
Definition lexle (a b : Z * Z) : Prop :=
  fst a = 0 \/
  (0 < fst b /\ (snd a < snd b \/ (snd a = snd b /\ fst a <= fst b))).

(** The value of a finite number, in units of [2^-1074]. *)
Definition uval (x : spec_float) : Z :=
  match x with
  | S754_finite _ m e => Z.pos m * 2 ^ (e + 1074)
  | _ => 0
  end.

(** The exact sum of finite numbers, with no rounding, in units of
    [2^-1074]. *)
Definition exact_sum (xs : list float) : Z :=
  fold_left Z.add (map (fun v => uval (Prim2SF v)) xs) 0.

(** A valid zero or positive finite number. *)
Definition nnfin (x : spec_float) : Prop :=
  valid_binary x = true /\
  match x with
  | S754_zero _ | S754_finite false _ _ => True
  | _ => False
  end.

(** Not NaN and not negative: a zero, a positive finite number or
    [+Infinity]. *)
Definition nnshape (x : spec_float) : Prop :=
  match x with
  | S754_zero _ | S754_finite false _ _ | S754_infinity false => True
  | _ => False
  end.

Definition nn (x : spec_float) : Prop := valid_binary x = true /\ nnshape x.

(** The same, of a JavaScript number. *)
Definition NN (a : float) : Prop := nnshape (Prim2SF a).

(** A sum or a product of two valid non-negative finite numbers is a zero
    when its exact value [v] (in units of [2^-K]) is zero, and the rounding
    of that value otherwise. *)
Definition rounds_to (K : Z) (f : spec_float) (v : Z) : Prop :=
  (v = 0 /\ exists s, f = S754_zero s) \/ (0 < v /\ f = round64 v (- K)).

(** One pass of the loop, with the monthly rate as a number [c]:
    [month_closing d r ob] is [closing_with d ((r / 100) / 12) ob]. *)
Definition closing_with (d c ob : float) : float :=
  ((ob + d) + (ob + d) * c)%float.

(** ** More of the program: the gate of the older copy, and saved scenarios *)

(** A row with its year moved [a] years on. *)
Definition shift_years (a : Z) (row : YearSummary) : YearSummary :=
  mkYearSummary (year row + a) (yearEndBalance row) (yearEndInterest row).

(** [readInputs] and [runCalculation] as [src/unnamed/part_000] has them. *)
Module Part000Gate.

Definition readInputs (initial monthly rate years : float) : ReadResult :=
  if existsb Number.isNaN [initial; monthly; rate; years] then
    Rejected "Invalid input. Please enter numeric values."
  else if (initial <? 0)%float || (monthly <? 0)%float || (rate <? 0)%float then
    Rejected "Invalid input. Please enter non-negative values."
  else if negb (Number.isInteger years) || (years <=? 0)%float then
    Rejected
      "Invalid input. Please enter a whole number of years greater than 0."
  else Accepted initial monthly rate years.

Definition runCalculation (initial monthly rate years : float) : CalcOutcome :=
  match readInputs initial monthly rate years with
  | Rejected message => ShowError message
  | Accepted initial monthly rate years =>
      let noDep :=
        Part000.calculateSchedule initial monthly rate (Number.toZ years) false in
      let dep :=
        Part000.calculateSchedule initial monthly rate (Number.toZ years) true in
      ShowTables noDep dep
  end.

End Part000Gate.

(** A saved scenario, the object [saveInvestment] pushes:
    [{ id, initial, monthly, rate, years, createdAt }].  [inv_id] is the
    integer [nextId++] gave it; [createdAt] is the instant, in milliseconds,
    that [new Date(createdAt)] reads back from the stored ISO text. *)
Record Investment : Type := mkInvestment {
  inv_id : Z;
  inv_initial : float;
  inv_monthly : float;
  inv_rate : float;
  inv_years : float;
  createdAt : Z
}.

(** The module-level variables [investments], [nextId] and [usingDatabase],
    and the array [localStorage] holds under [LOCAL_KEY] ([None] when
    nothing that parses to an array is there). *)
Record Session : Type := mkSession {
  investments : list Investment;
  nextId : Z;
  usingDatabase : bool;
  stored : option (list Investment)
}.


(** [Array.prototype.sort(compare)].  [after a b] says [compare(a, b) > 0]:
    [a] is to come after [b].  With a consistent comparator the result is
    the stable sorted permutation, whatever the engine; it is built here by
    insertion from the right. *)
Module ArrayPrototype.

Fixpoint insert {A : Type} (after : A -> A -> bool) (x : A) (l : list A)
    : list A :=
  match l with
  | [] => [x]
  | y :: l' => if after x y then y :: insert after x l' else x :: l
  end.

Definition sort {A : Type} (after : A -> A -> bool) (l : list A) : list A :=
  fold_right (insert after) [] l.

End ArrayPrototype.

(** The scenario list of [src/app.js], in the mode that saves locally, and
    the two handlers that change it. *)
Module Scenarios.

(** [loadLocalInvestments]: the stored array, or [[]]. *)
Definition loadLocalInvestments (s : Session) : list Investment :=
  match stored s with
  | Some parsed => parsed
  | None => []
  end.


(** [syncNextIdFromInvestments]: one more than the largest id, from 0. *)
Definition syncNextIdFromInvestments (s : Session) : Session :=
  let maxId := fold_left (fun m x => Z.max m (inv_id x)) (investments s) 0 in
  mkSession (investments s) (maxId + 1) (usingDatabase s) (stored s).


(** [sortByDateDesc]: [compare(a, b)] is
    [new Date(b.createdAt) - new Date(a.createdAt)]. *)
Definition sortByDateDesc (s : Session) : Session :=
  mkSession
    (ArrayPrototype.sort (fun a b => 0 <? createdAt b - createdAt a)
       (investments s))
    (nextId s) (usingDatabase s) (stored s).

(** [sortByInitialDesc]: [compare(a, b)] is [b.initial - a.initial]. *)
Definition sortByInitialDesc (s : Session) : Session :=
  mkSession
    (ArrayPrototype.sort
       (fun a b => (0 <? inv_initial b - inv_initial a)%float)
       (investments s))
    (nextId s) (usingDatabase s) (stored s).


(** The click handler of [logoutBtn], after the sign-out; the page does the
    same when it loads without a session. *)
Definition logoutClick (s : Session) : Session :=
  let s1 := mkSession (investments s) (nextId s) false (stored s) in
  let s2 :=
    mkSession (loadLocalInvestments s1) (nextId s1) (usingDatabase s1)
      (stored s1) in
  sortByDateDesc (syncNextIdFromInvestments s2).

End Scenarios.

(** [nextId] is positive and above every id in the list. *)
Definition fresh_ids (s : Session) : Prop :=
  1 <= nextId s /\ Forall (fun x => inv_id x < nextId s) (investments s).

(** The comparator of [sortByDateDesc] says [a] comes after [b]. *)
Definition date_after (a b : Investment) : bool :=
  0 <? createdAt b - createdAt a.

(** The comparator of [sortByInitialDesc] says [a] comes after [b]. *)
Definition amount_after (a b : Investment) : bool :=
  (0 <? inv_initial b - inv_initial a)%float.

(** The amount of a scenario, exactly, in units of [2^-1074]. *)
Definition amount_key (x : Investment) : Z := uval (Prim2SF (inv_initial x)).

(** The sign of a rounded result is the sign asked for. *)
Definition has_sign (sx : bool) (x : spec_float) : Prop :=
  match x with
  | S754_zero s | S754_infinity s | S754_finite s _ _ => s = sx
  | S754_nan => False
  end.

(** Two scenarios saved locally, the older one first. *)
Definition sample_session : Session :=
  let older := mkInvestment 1 1000 100 5 5 1000 in
  let newer := mkInvestment 2 2500 50 3 10 2000 in
  mkSession [older; newer] 3 false (Some [older; newer]).

(** * Theorems *)

(** ** The loop, unrolled *)

Lemma for_loop_run_months deposit rate totalMonths month s :
  App.for_loop deposit rate totalMonths month s =
  run_months deposit rate (Z.to_nat (totalMonths + 1 - month)) month s.
Proof.
  funelim (App.for_loop deposit rate totalMonths month s).
  - replace (Z.to_nat (totalMonths + 1 - month))
      with (S (Z.to_nat (totalMonths + 1 - (month + 1)))) by lia.
    cbn [run_months]. assumption.
  - replace (Z.to_nat (totalMonths + 1 - month)) with O by lia. reflexivity.
Qed.

Lemma run_months_app deposit rate a b month s :
  run_months deposit rate (a + b) month s =
  run_months deposit rate b (month + Z.of_nat a)
    (run_months deposit rate a month s).
Proof.
  revert month s. induction a as [|a IH]; intros month s.
  - cbn. f_equal. lia.
  - cbn [Nat.add run_months]. rewrite IH. f_equal. lia.
Qed.

Lemma rem12_mid q j : 0 <= q -> 0 < j < 12 -> (Z.rem (12 * q + j) 12 =? 0) = false.
Proof.
  intros Hq Hj. apply Z.eqb_neq.
  rewrite Z.rem_mod_nonneg by lia.
  rewrite Z.mul_comm, Z.add_comm, Z_mod_plus_full, Z.mod_small; lia.
Qed.

Lemma rem12_end q : 0 <= q -> (Z.rem (12 * q + 12) 12 =? 0) = true.
Proof.
  intros Hq. apply Z.eqb_eq.
  rewrite Z.rem_mod_nonneg by lia.
  replace (12 * q + 12) with ((q + 1) * 12) by lia. apply Z_mod_mult.
Qed.

Lemma loop_body_mid deposit rate q j s :
  0 <= q -> 0 < j < 12 ->
  App.loop_body deposit rate (12 * q + j) s =
  mkLoopState (month_closing deposit rate (openingBalance s))
    (interestSoFar s + month_interest deposit rate (openingBalance s))%float
    (currentYear s) (results s).
Proof.
  intros Hq Hj. unfold App.loop_body. rewrite rem12_mid by assumption.
  reflexivity.
Qed.

Lemma loop_body_end deposit rate q s :
  0 <= q ->
  App.loop_body deposit rate (12 * q + 12) s =
  mkLoopState (month_closing deposit rate (openingBalance s)) 0%float
    (currentYear s + 1)
    (results s ++
     [mkYearSummary (currentYear s)
        (month_closing deposit rate (openingBalance s))
        (interestSoFar s + month_interest deposit rate (openingBalance s))%float]).
Proof.
  intros Hq. unfold App.loop_body. rewrite rem12_end by assumption.
  reflexivity.
Qed.

Lemma run_months_step_mid deposit rate n q j s :
  0 <= q -> 0 < j < 12 ->
  run_months deposit rate (S n) (12 * q + j) s =
  run_months deposit rate n (12 * q + (j + 1))
    (mkLoopState (month_closing deposit rate (openingBalance s))
       (interestSoFar s + month_interest deposit rate (openingBalance s))%float
       (currentYear s) (results s)).
Proof.
  intros Hq Hj. cbn [run_months]. rewrite loop_body_mid by assumption.
  f_equal. lia.
Qed.

Lemma run_months_step_end deposit rate q j s :
  0 <= q -> j = 12 ->
  run_months deposit rate 1 (12 * q + j) s =
  mkLoopState (month_closing deposit rate (openingBalance s)) 0%float
    (currentYear s + 1)
    (results s ++
     [mkYearSummary (currentYear s)
        (month_closing deposit rate (openingBalance s))
        (interestSoFar s + month_interest deposit rate (openingBalance s))%float]).
Proof.
  intros Hq ->. cbn [run_months]. apply loop_body_end. assumption.
Qed.

(** Twelve passes from the first month of a year: one row is pushed, with the
    balance twelve months on and the twelve interests added up from [0.0]. *)
Lemma run_year deposit rate q ob y res :
  0 <= q ->
  run_months deposit rate 12 (12 * q + 1) (mkLoopState ob 0%float y res) =
  mkLoopState (balance_after deposit rate 12 ob) 0%float (y + 1)
    (res ++
     [mkYearSummary y (balance_after deposit rate 12 ob)
        (sum_from 0%float (interests_from deposit rate 12 ob))]).
Proof.
  intros Hq.
  do 11 (rewrite run_months_step_mid by lia;
         cbn [openingBalance interestSoFar currentYear results]).
  rewrite run_months_step_end by lia.
  cbn [openingBalance interestSoFar currentYear results].
  reflexivity.
Qed.

Lemma balance_after_add deposit rate a b ob :
  balance_after deposit rate (a + b) ob =
  balance_after deposit rate b (balance_after deposit rate a ob).
Proof.
  revert ob. induction a as [|a IH]; intros ob; [reflexivity|].
  cbn [Nat.add balance_after]. apply IH.
Qed.

(** The state after [y] whole years. *)
Lemma run_years deposit rate initialInvestment y :
  run_months deposit rate (12 * y) 1
    (mkLoopState initialInvestment 0%float 1 []) =
  mkLoopState (balance_after deposit rate (12 * y) initialInvestment) 0%float
    (Z.of_nat y + 1)
    (map (year_row deposit rate initialInvestment) (seq 1 y)).
Proof.
  induction y as [|y IH]; [reflexivity|].
  replace (12 * S y)%nat with (12 * y + 12)%nat by lia.
  rewrite run_months_app, IH.
  replace (1 + Z.of_nat (12 * y)) with (12 * Z.of_nat y + 1) by lia.
  rewrite run_year by lia.
  rewrite balance_after_add.
  f_equal; [lia|].
  rewrite seq_S, map_app. cbn [map]. f_equal. f_equal.
  unfold year_row.
  replace (12 * (1 + y - 1))%nat with (12 * y)%nat by lia.
  f_equal. lia.
Qed.

(** The schedule in closed form: row [y] is [year_row y], for [y] from 1 to
    [years]. *)
Lemma calculateSchedule_rows initialInvestment monthlyDeposit rate years
    withDeposit :
  App.calculateSchedule initialInvestment monthlyDeposit rate years withDeposit =
  map (year_row (deposit_of withDeposit monthlyDeposit) rate initialInvestment)
    (seq 1 (Z.to_nat years)).
Proof.
  unfold App.calculateSchedule. cbv zeta. rewrite for_loop_run_months.
  replace (Z.to_nat (years * 12 + 1 - 1)) with (12 * Z.to_nat years)%nat by lia.
  fold (deposit_of withDeposit monthlyDeposit).
  rewrite run_years. reflexivity.
Qed.

(** ** The two copies *)

Lemma Part000_for_loop_run_months deposit rate totalMonths month s :
  Part000.for_loop deposit rate totalMonths month s =
  run_months deposit rate (Z.to_nat (totalMonths + 1 - month)) month s.
Proof.
  funelim (Part000.for_loop deposit rate totalMonths month s).
  - replace (Z.to_nat (totalMonths + 1 - month))
      with (S (Z.to_nat (totalMonths + 1 - (month + 1)))) by lia.
    cbn [run_months]. assumption.
  - replace (Z.to_nat (totalMonths + 1 - month)) with O by lia. reflexivity.
Qed.

Lemma Part000_calculateSchedule_App initialInvestment monthlyDeposit rate years
    withDeposit :
  Part000.calculateSchedule initialInvestment monthlyDeposit rate years
    withDeposit =
  App.calculateSchedule initialInvestment monthlyDeposit rate years withDeposit.
Proof.
  unfold Part000.calculateSchedule, App.calculateSchedule. cbv zeta.
  rewrite Part000_for_loop_run_months, for_loop_run_months. reflexivity.
Qed.

(** ** The reference simulation *)

Lemma month_step_loop_body deposit rate month s :
  0 <= month ->
  Spec.month_step deposit rate (sim_of s) month =
  sim_of (App.loop_body deposit rate month s).
Proof.
  intros Hm. unfold Spec.month_step, App.loop_body.
  rewrite Z.rem_mod_nonneg by lia.
  cbn [sim_of Spec.simOpening Spec.yearlyInterestAccumulator Spec.simYear
       Spec.emitted].
  destruct (Z.eq_dec (month mod 12) 0) as [E|E].
  - rewrite E. reflexivity.
  - apply Z.eqb_neq in E. rewrite E. reflexivity.
Qed.

Lemma fold_month_step_run_months deposit rate n a s :
  fold_left (Spec.month_step deposit rate) (map Z.of_nat (seq a n)) (sim_of s) =
  sim_of (run_months deposit rate n (Z.of_nat a) s).
Proof.
  revert a s. induction n as [|n IH]; intros a s; [reflexivity|].
  cbn [seq map fold_left run_months].
  rewrite month_step_loop_body by lia.
  rewrite IH. do 2 f_equal. lia.
Qed.

Lemma App_calculateSchedule_Spec initialInvestment monthlyDeposit rate years
    withDeposit :
  App.calculateSchedule initialInvestment monthlyDeposit rate years withDeposit =
  Spec.compute initialInvestment monthlyDeposit rate years withDeposit.
Proof.
  unfold App.calculateSchedule, Spec.compute, Spec.months. cbv zeta.
  rewrite for_loop_run_months.
  replace (Z.to_nat (years * 12 + 1 - 1)) with (Z.to_nat (years * 12)) by lia.
  change (Spec.mkSimState initialInvestment 0 1 [])
    with (sim_of (mkLoopState initialInvestment 0 1 [])).
  rewrite fold_month_step_run_months. reflexivity.
Qed.

(** C1.  On every input, and so on every input of the precondition, both
    copies of [calculateSchedule] return what the month-by-month reference
    simulation of section 4.1 of the specification returns. *)
Theorem calculateSchedule_refines_spec :
  forall (initialBalance monthlyDeposit annualRatePercent : float) (years : Z)
         (applyDeposit : bool),
    App.calculateSchedule initialBalance monthlyDeposit annualRatePercent years
      applyDeposit =
    Spec.compute initialBalance monthlyDeposit annualRatePercent years
      applyDeposit
    /\ Part000.calculateSchedule initialBalance monthlyDeposit annualRatePercent
         years applyDeposit =
       Spec.compute initialBalance monthlyDeposit annualRatePercent years
         applyDeposit.
Proof.
  intros. split.
  - apply App_calculateSchedule_Spec.
  - rewrite Part000_calculateSchedule_App. apply App_calculateSchedule_Spec.
Qed.

(** C10.  The copy of [calculateSchedule] in [src/unnamed/part_000] and the
    one in [src/app.js] return the same rows on every input. *)
Theorem calculateSchedule_copies_agree :
  forall (initialInvestment monthlyDeposit annualInterestRate : float)
         (years : Z) (withDeposit : bool),
    Part000.calculateSchedule initialInvestment monthlyDeposit
      annualInterestRate years withDeposit =
    App.calculateSchedule initialInvestment monthlyDeposit annualInterestRate
      years withDeposit.
Proof.
  intros. unfold Part000.calculateSchedule, App.calculateSchedule. cbv zeta.
  rewrite Part000_for_loop_run_months, for_loop_run_months. reflexivity.
Qed.

(** ** Years *)

Lemma map_year_rows deposit rate initialInvestment a n :
  map year (map (year_row deposit rate initialInvestment) (seq a n)) =
  map Z.of_nat (seq a n).
Proof. rewrite map_map. apply map_ext. reflexivity. Qed.

(** C3.  For a positive number of [years], the schedule has exactly [years]
    rows and their [year] fields are 1, 2, ..., [years] in this order; one
    year gives one row. *)
Theorem calculateSchedule_years :
  forall (initialBalance monthlyDeposit annualRatePercent : float) (years : Z)
         (applyDeposit : bool),
    1 <= years ->
    let rows :=
      App.calculateSchedule initialBalance monthlyDeposit annualRatePercent
        years applyDeposit in
    Z.of_nat (List.length rows) = years
    /\ map year rows = map Z.of_nat (seq 1 (Z.to_nat years))
    /\ (years = 1 -> exists row, rows = [row] /\ year row = 1).
Proof.
  intros ib md r years ad Hy rows. subst rows.
  rewrite calculateSchedule_rows. repeat split.
  - rewrite length_map, length_seq. lia.
  - apply map_year_rows.
  - intros ->. eexists. split; reflexivity.
Qed.

Lemma calculateSchedule_years_witness :
  1 <= 3 /\
  let rows := App.calculateSchedule 1000 100 5 3 true in
  Z.of_nat (List.length rows) = 3
  /\ map year rows = map Z.of_nat (seq 1 (Z.to_nat 3))
  /\ (3 = 1 -> exists row, rows = [row] /\ year row = 1).
Proof.
  split; [lia | apply (calculateSchedule_years 1000 100 5 3 true); lia].
Defined.

(** ** The deposit flag *)

(** C7.  With [monthlyDeposit = 0] the run with the deposit applied returns
    the same rows as the run without it; and a run without the deposit does
    not depend on [monthlyDeposit]. *)
Theorem calculateSchedule_deposit_ignored :
  forall (initialBalance annualRatePercent : float) (years : Z),
    App.calculateSchedule initialBalance 0 annualRatePercent years true =
    App.calculateSchedule initialBalance 0 annualRatePercent years false
    /\ forall monthlyDeposit monthlyDeposit' : float,
         App.calculateSchedule initialBalance monthlyDeposit annualRatePercent
           years false =
         App.calculateSchedule initialBalance monthlyDeposit' annualRatePercent
           years false.
Proof.
  intros. split; [|intros]; rewrite !calculateSchedule_rows; reflexivity.
Qed.

(** ** Totality *)


(** ** The worked example *)

(** C9, as the specification words it, fails: with 1000, 100, 5 percent and
    5 years the first year of the run with deposits ends below 2300, and
    prints as 2284.16, not 2351.16. *)
Lemma example_with_deposit_not_2351_16 :
  ~ (first_row_money (App.calculateSchedule 1000 100 5 5 false) =
       Some (Some 105116, Some 5116)
     /\ option_map fst (first_row_money (App.calculateSchedule 1000 100 5 5 true)) =
          Some (Some 235116))
  /\ option_map (fun row => (yearEndBalance row <? 2300)%float)
       (hd_error (App.calculateSchedule 1000 100 5 5 true)) = Some true.
Proof.
  split.
  - intros [_ H]. vm_compute in H. discriminate H.
  - vm_compute. reflexivity.
Qed.

(** C9, amended.  With 1000, 100, 5 percent and 5 years, the first row of the
    run without deposits prints the balance 1051.16 and the interest 51.16,
    and the first row of the run with deposits prints the balance 2284.16
    and the interest 84.16 (1000 + 1200 of deposits + 84.16 of interest). *)
Theorem example_first_year :
  first_row_money (App.calculateSchedule 1000 100 5 5 false) =
    Some (Some 105116, Some 5116)
  /\ first_row_money (App.calculateSchedule 1000 100 5 5 true) =
       Some (Some 228416, Some 8416).
Proof. split; vm_compute; reflexivity. Qed.

(** ** The gate before the core *)



(** C2, where the code departs from it.  A field that is [Infinity] is not a
    finite number, yet [readInputs] accepts it (it tests [Number.isNaN]
    only), and [runCalculation] goes on to call the core, whose rows are all
    [Infinity]; [isValidInputs], the gate of the save button, refuses the
    same values. *)
Theorem readInputs_accepts_Infinity :
  Number.isFinite infinity = false
  /\ App.readInputs infinity 100 5 5 = Accepted infinity 100 5 5
  /\ App.runCalculation infinity 100 5 5 =
     ShowTables (App.calculateSchedule infinity 100 5 5 false)
       (App.calculateSchedule infinity 100 5 5 true)
  /\ map yearEndBalance (App.calculateSchedule infinity 100 5 5 false) =
     [infinity; infinity; infinity; infinity; infinity]
  /\ App.isValidInputs (mkParsedInputs infinity 100 5 5) = false.
Proof. repeat split; vm_compute; reflexivity. Qed.

(** ** Interest, year by year *)

Lemma length_interests_from deposit rate n ob :
  List.length (interests_from deposit rate n ob) = n.
Proof.
  revert ob. induction n as [|n IH]; intros ob; cbn; [reflexivity|].
  now rewrite IH.
Qed.

Lemma interests_from_add deposit rate a b ob :
  interests_from deposit rate (a + b) ob =
  interests_from deposit rate a ob ++
  interests_from deposit rate b (balance_after deposit rate a ob).
Proof.
  revert ob. induction a as [|a IH]; intros ob; [reflexivity|].
  cbn [Nat.add interests_from balance_after app]. now rewrite IH.
Qed.

(** The twelve interests of year [y], cut out of the interests of all the
    months. *)
Lemma year_slice deposit rate ob y n :
  (1 <= y <= n)%nat ->
  firstn 12 (skipn (12 * (y - 1)) (interests_from deposit rate (12 * n) ob)) =
  interests_from deposit rate 12
    (balance_after deposit rate (12 * (y - 1)) ob).
Proof.
  intros Hy.
  replace (12 * n)%nat with (12 * (y - 1) + (12 + 12 * (n - y)))%nat by lia.
  rewrite interests_from_add, skipn_app, length_interests_from.
  rewrite Nat.sub_diag, skipn_all2 by (rewrite length_interests_from; lia).
  cbn [skipn app].
  rewrite interests_from_add, firstn_app, length_interests_from.
  rewrite Nat.sub_diag, firstn_all2 by (rewrite length_interests_from; lia).
  cbn [firstn]. apply app_nil_r.
Qed.

(** The slices of the years 1 to [n], one after the other, are the interests
    of all the months. *)
Lemma year_slices_concat deposit rate ob n :
  concat
    (map (fun y =>
            interests_from deposit rate 12
              (balance_after deposit rate (12 * (y - 1)) ob))
       (seq 1 n)) =
  interests_from deposit rate (12 * n) ob.
Proof.
  induction n as [|n IH]; [reflexivity|].
  rewrite seq_S, map_app, concat_app, IH. cbn [map concat].
  rewrite app_nil_r.
  replace (12 * S n)%nat with (12 * n + 12)%nat by lia.
  rewrite interests_from_add. do 3 f_equal. lia.
Qed.

(** C4, as the specification words it, fails in binary64: with 1000, 100,
    5 percent, 2 years and the deposit applied, adding up the two
    [yearEndInterest] values gives 234.02752251401461, and adding up the 24
    monthly interests gives 234.02752251401455.  The two sums differ as well
    when they are taken exactly, without rounding: a [yearEndInterest] is
    already a rounded sum. *)
Lemma yearEndInterest_total_differs :
  (sum_from 0 (map yearEndInterest (App.calculateSchedule 1000 100 5 2 true))
   =? sum_from 0 (interests_from 100 5 24 1000))%float = false
  /\ sum_from 0 (map yearEndInterest (App.calculateSchedule 1000 100 5 2 true))
     <> sum_from 0 (interests_from 100 5 24 1000)
  /\ exact_sum (map yearEndInterest (App.calculateSchedule 1000 100 5 2 true))
     <> exact_sum (interests_from 100 5 24 1000).
Proof.
  split; [vm_compute; reflexivity|]. split.
  - intros H.
    apply (f_equal
             (fun v => (v =? sum_from 0 (interests_from 100 5 24 1000))%float))
      in H.
    vm_compute in H. discriminate H.
  - intros H. vm_compute in H. discriminate H.
Qed.

(** C4, amended.  Each [yearEndInterest] is the sum, added up from [0.0] in
    month order, of the interests of the twelve months of its own year and of
    no other month; and the years' slices of twelve, put end to end, are the
    interests of all the [12 * years] months, each counted once. *)
Theorem yearEndInterest_own_year :
  forall (initialBalance monthlyDeposit annualRatePercent : float) (years : Z)
         (applyDeposit : bool),
    let monthly :=
      interests_from (deposit_of applyDeposit monthlyDeposit) annualRatePercent
        (12 * Z.to_nat years) initialBalance in
    let slice := fun y : nat => firstn 12 (skipn (12 * (y - 1)) monthly) in
    map yearEndInterest
      (App.calculateSchedule initialBalance monthlyDeposit annualRatePercent
         years applyDeposit) =
    map (fun y => sum_from 0 (slice y)) (seq 1 (Z.to_nat years))
    /\ concat (map slice (seq 1 (Z.to_nat years))) = monthly.
Proof.
  intros ib md r years ad monthly slice. subst monthly slice. cbv beta.
  rewrite calculateSchedule_rows, map_map. split.
  - apply map_ext_in. intros y Hy. apply in_seq in Hy.
    rewrite year_slice by lia. reflexivity.
  - etransitivity; [|apply year_slices_concat]. f_equal.
    apply map_ext_in. intros y Hy. apply in_seq in Hy.
    apply year_slice. lia.
Qed.

(** ** No rate, no deposit *)

Lemma Prim2SF_zero : Prim2SF 0 = S754_zero false.
Proof. reflexivity. Qed.

Lemma nonneg_finite_shape v :
  nonneg_finite v = true ->
  (exists s, Prim2SF v = S754_zero s)
  \/ exists m e, Prim2SF v = S754_finite false m e.
Proof.
  unfold nonneg_finite, Number.isFinite, is_finite, is_nan, is_infinity.
  rewrite leb_spec, !eqb_spec, abs_spec, Prim2SF_zero.
  destruct (Prim2SF v) as [s|s| |s m e]; cbn.
  - intros _. left. now exists s.
  - destruct s; discriminate.
  - discriminate.
  - destruct s.
    + rewrite andb_false_r. discriminate.
    + intros _. right. now exists m, e.
Qed.

















(** ** Binary64 rounding: shifts and round-to-nearest-even *)

Lemma shr_1_nonneg m r s :
  0 <= m -> shr_1 (Build_shr_record m r s) = Build_shr_record (m / 2) (Z.odd m) (r || s).
Proof.
  intros Hm. destruct m as [|p|p]; [reflexivity| |lia].
  destruct p as [p|p|]; cbn [shr_1].
  - replace (Z.pos p~1 / 2) with (Z.pos p)
      by (apply Z.div_unique with 1; lia).
    reflexivity.
  - replace (Z.pos p~0 / 2) with (Z.pos p)
      by (apply Z.div_unique with 0; lia).
    reflexivity.
  - reflexivity.
Qed.

Lemma shr_inv_step m k mrs : shr_inv m k mrs -> shr_inv m (k + 1) (shr_1 mrs).
Proof.
  intros (Hk & Hq & rem & Hm & Hrem & Hloc).
  destruct mrs as [q r s]. cbn [shr_m shr_r shr_s] in *.
  rewrite shr_1_nonneg by assumption. unfold shr_inv. cbn [shr_m shr_r shr_s].
  assert (Hp : 2 ^ (k + 1) = 2 * 2 ^ k) by (rewrite Z.pow_add_r by lia; lia).
  assert (H2k : 0 < 2 ^ k) by (apply Z.pow_pos_nonneg; lia).
  split; [lia|]. split; [apply Z.div_pos; lia|].
  pose proof (Z.div_mod q 2 ltac:(lia)) as Hdm.
  pose proof (Z.mod_pos_bound q 2 ltac:(lia)) as Hb.
  rewrite Zodd_mod.
  destruct (Z.eqb_spec (q mod 2) 1) as [E|E].
  - exists (2 ^ k + rem). rewrite Hp. split; [nia|]. split; [lia|].
    destruct r, s; cbn [orb]; lia.
  - assert (q mod 2 = 0) by lia.
    exists rem. rewrite Hp. split; [nia|]. split; [lia|].
    destruct r, s; cbn [orb]; lia.
Qed.

Lemma shr_inv_iter m p : forall k mrs,
  shr_inv m k mrs -> shr_inv m (k + Z.pos p) (iter_pos shr_1 p mrs).
Proof.
  induction p as [p IH|p IH|]; intros k mrs H; cbn [iter_pos].
  - replace (k + Z.pos p~1) with (k + 1 + Z.pos p + Z.pos p) by lia.
    apply IH, IH, shr_inv_step, H.
  - replace (k + Z.pos p~0) with (k + Z.pos p + Z.pos p) by lia.
    apply IH, IH, H.
  - apply shr_inv_step, H.
Qed.

Lemma shr_inv_init m : 0 <= m -> shr_inv m 0 (Build_shr_record m false false).
Proof.
  intros Hm. unfold shr_inv. cbn. split; [lia|]. split; [lia|].
  exists 0. lia.
Qed.

Lemma shr_inv_round m k mrs :
  shr_inv m k mrs ->
  round_nearest_even (shr_m mrs) (loc_of_shr_record mrs) = rnd k m.
Proof.
  intros (Hk & Hq & rem & Hm & Hrem & Hloc). unfold rnd. cbv zeta.
  assert (H2k : 0 < 2 ^ k) by (apply Z.pow_pos_nonneg; lia).
  assert (Hdiv : m / 2 ^ k = shr_m mrs)
    by (symmetry; apply Z.div_unique with rem; lia).
  assert (Hmod : m mod 2 ^ k = rem)
    by (symmetry; apply Z.mod_unique with (shr_m mrs); lia).
  rewrite Hdiv, Hmod.
  destruct mrs as [q r s]. cbn [shr_m shr_r shr_s loc_of_shr_record] in *.
  destruct r, s; cbn [round_nearest_even].
  - destruct (Z.ltb_spec (2 * rem) (2 ^ k)); [lia|].
    destruct (Z.ltb_spec (2 ^ k) (2 * rem)); [reflexivity|lia].
  - destruct (Z.ltb_spec (2 * rem) (2 ^ k)); [lia|].
    destruct (Z.ltb_spec (2 ^ k) (2 * rem)); [lia|reflexivity].
  - destruct (Z.ltb_spec (2 * rem) (2 ^ k)); [reflexivity|lia].
  - destruct (Z.ltb_spec (2 * rem) (2 ^ k)); [reflexivity|lia].
Qed.

(** The first shift of [binary_round_aux] followed by the rounding. *)
Lemma shr_round m e k :
  0 <= m -> 0 <= k ->
  let '(mrs, e') := shr (Build_shr_record m false false) e k in
  round_nearest_even (shr_m mrs) (loc_of_shr_record mrs) = rnd k m /\ e' = e + k.
Proof.
  intros Hm Hk. unfold shr. destruct k as [|p|p]; [| |lia].
  - split; [|lia]. apply shr_inv_round, shr_inv_init, Hm.
  - split; [|reflexivity].
    apply shr_inv_round. apply (shr_inv_iter m p 0), shr_inv_init, Hm.
Qed.

Lemma pow2_pos k : 0 <= k -> 0 < 2 ^ k.
Proof. intros. apply Z.pow_pos_nonneg; lia. Qed.

Lemma rnd_0 m : rnd 0 m = m.
Proof.
  unfold rnd. cbv zeta. rewrite Z.pow_0_r, Z.mod_1_r, Z.div_1_r. reflexivity.
Qed.

Lemma rnd_bounds k m :
  0 <= k -> m / 2 ^ k <= rnd k m <= m / 2 ^ k + 1.
Proof.
  intros Hk. unfold rnd. cbv zeta.
  destruct (_ <? _); [lia|]. destruct (_ <? _); [lia|].
  destruct (Z.even _); lia.
Qed.

Lemma rnd_mono k m m' : 0 <= k -> m <= m' -> rnd k m <= rnd k m'.
Proof.
  intros Hk Hm.
  pose proof (pow2_pos k Hk) as HP.
  pose proof (Z.div_le_mono m m' (2 ^ k) HP Hm) as Hq.
  pose proof (rnd_bounds k m Hk) as Hb. pose proof (rnd_bounds k m' Hk) as Hb'.
  destruct (Z.eq_dec (m / 2 ^ k) (m' / 2 ^ k)) as [E|E]; [|lia].
  assert (Hr : m mod 2 ^ k <= m' mod 2 ^ k).
  { rewrite !Z.mod_eq by lia. rewrite E. lia. }
  unfold rnd. cbv zeta. rewrite <- E.
  destruct (Z.ltb_spec (2 * (m mod 2 ^ k)) (2 ^ k));
    destruct (Z.ltb_spec (2 * (m' mod 2 ^ k)) (2 ^ k)); try lia.
  - destruct (_ <? _); [lia|]. destruct (Z.even _); lia.
  - destruct (Z.ltb_spec (2 ^ k) (2 * (m mod 2 ^ k)));
      destruct (Z.ltb_spec (2 ^ k) (2 * (m' mod 2 ^ k))); try lia.
    destruct (Z.even _); lia.
Qed.

Lemma rnd_scale k j m :
  0 <= k -> 0 <= j -> rnd (k + j) (m * 2 ^ j) = rnd k m.
Proof.
  intros Hk Hj. unfold rnd. cbv zeta.
  pose proof (pow2_pos k Hk) as HP. pose proof (pow2_pos j Hj) as HJ.
  rewrite Z.pow_add_r by assumption.
  replace (m * 2 ^ j / (2 ^ k * 2 ^ j)) with (m / 2 ^ k)
    by (symmetry; apply Z.div_mul_cancel_r; lia).
  replace (m * 2 ^ j mod (2 ^ k * 2 ^ j)) with ((m mod 2 ^ k) * 2 ^ j)
    by (symmetry; apply Z.mul_mod_distr_r; lia).
  set (r := m mod 2 ^ k). set (q := m / 2 ^ k).
  destruct (Z.ltb_spec (2 * r) (2 ^ k));
    destruct (Z.ltb_spec (2 * (r * 2 ^ j)) (2 ^ k * 2 ^ j));
    try reflexivity; try (exfalso; nia).
  destruct (Z.ltb_spec (2 ^ k) (2 * r));
    destruct (Z.ltb_spec (2 ^ k * 2 ^ j) (2 * (r * 2 ^ j)));
    try reflexivity; exfalso; nia.
Qed.

Lemma rnd_upper k m B : 0 <= k -> m < 2 ^ k * B -> rnd k m <= B.
Proof.
  intros Hk Hm. pose proof (rnd_bounds k m Hk).
  pose proof (pow2_pos k Hk).
  assert (m / 2 ^ k < B) by (apply Z.div_lt_upper_bound; lia). lia.
Qed.

Lemma rnd_lower k m A : 0 <= k -> 2 ^ k * A <= m -> A <= rnd k m.
Proof.
  intros Hk Hm. pose proof (rnd_bounds k m Hk).
  pose proof (pow2_pos k Hk).
  assert (A <= m / 2 ^ k) by (apply Z.div_le_lower_bound; lia). lia.
Qed.

Lemma rnd_nonneg k m : 0 <= k -> 0 <= m -> 0 <= rnd k m.
Proof. intros Hk Hm. apply rnd_lower; lia. Qed.

(** Number of binary digits. *)
Lemma digits2_bounds p :
  2 ^ (Z.pos (digits2_pos p) - 1) <= Z.pos p < 2 ^ Z.pos (digits2_pos p).
Proof.
  induction p as [p IH|p IH|]; cbn [digits2_pos].
  - rewrite Pos2Z.inj_succ.
    replace (Z.succ (Z.pos (digits2_pos p)) - 1)
      with (Z.succ (Z.pos (digits2_pos p) - 1)) by lia.
    rewrite !Z.pow_succ_r by lia. lia.
  - rewrite Pos2Z.inj_succ.
    replace (Z.succ (Z.pos (digits2_pos p)) - 1)
      with (Z.succ (Z.pos (digits2_pos p) - 1)) by lia.
    rewrite !Z.pow_succ_r by lia. lia.
  - cbn. lia.
Qed.

Lemma digits2_upper p n :
  0 <= n -> Z.pos p < 2 ^ n -> Z.pos (digits2_pos p) <= n.
Proof.
  intros Hn H. pose proof (digits2_bounds p).
  assert (2 ^ (Z.pos (digits2_pos p) - 1) < 2 ^ n) by lia.
  apply Z.pow_lt_mono_r_iff in H1; lia.
Qed.

Lemma digits2_lower p n :
  2 ^ n <= Z.pos p -> n < Z.pos (digits2_pos p).
Proof.
  intros H. pose proof (digits2_bounds p).
  assert (2 ^ n < 2 ^ Z.pos (digits2_pos p)) by lia.
  apply Z.pow_lt_mono_r_iff in H1; lia.
Qed.

(** ** Binary64 rounding: what [binary_round_aux] computes *)

Lemma fexp_fexp64 z : fexp prec emax z = fexp64 z.
Proof. reflexivity. Qed.

Lemma shr_no_shift mrs e n : n <= 0 -> shr mrs e n = (mrs, e).
Proof. intros H. unfold shr. destruct n; [reflexivity|lia|reflexivity]. Qed.

Lemma Zdigits2_upper m n : 0 <= n -> 0 <= m < 2 ^ n -> Zdigits2 m <= n.
Proof.
  intros Hn [H0 H]. destruct m as [|p|p]; [cbn; lia| |lia].
  cbn [Zdigits2]. now apply digits2_upper.
Qed.

Lemma second_shift m1 e1 :
  0 <= m1 <= 2 ^ 53 -> -1074 <= e1 ->
  let '(mrs, e2) := shr_fexp prec emax m1 e1 loc_Exact in
  (shr_m mrs, e2) = norm64 m1 e1.
Proof.
  intros Hm He. unfold shr_fexp, norm64. rewrite fexp_fexp64.
  cbn [shr_record_of_loc].
  destruct (Z.eqb_spec m1 (2 ^ 53)) as [->|Hne].
  - change (Zdigits2 (2 ^ 53)) with 54. unfold fexp64.
    replace (Z.max (54 + e1 - 53) (-1074) - e1) with 1 by lia.
    reflexivity.
  - rewrite shr_no_shift; [reflexivity|].
    pose proof (Zdigits2_upper m1 53 ltac:(lia) ltac:(lia)).
    unfold fexp64. lia.
Qed.

Theorem binary_round_aux_round64 m e :
  0 <= fexp64 (Z.pos (digits2_pos m) + e) - e ->
  binary_round_aux prec emax false (Z.pos m) e loc_Exact = round64 (Z.pos m) e.
Proof.
  intros Hk. unfold binary_round_aux, round64. cbv zeta. cbn [Zdigits2].
  set (k := fexp64 (Z.pos (digits2_pos m) + e) - e) in *.
  unfold shr_fexp at 1. rewrite fexp_fexp64. cbn [shr_record_of_loc Zdigits2].
  fold k.
  pose proof (shr_round (Z.pos m) e k ltac:(lia) Hk) as H1.
  destruct (shr (Build_shr_record (Z.pos m) false false) e k) as [mrs e1].
  destruct H1 as [-> ->].
  assert (Hup : rnd k (Z.pos m) <= 2 ^ 53).
  { apply rnd_upper; [assumption|].
    pose proof (digits2_bounds m) as [_ Hd].
    eapply Z.lt_le_trans; [exact Hd|].
    rewrite <- Z.pow_add_r by lia.
    apply Z.pow_le_mono_r; [lia|]. unfold k, fexp64. lia. }
  pose proof (rnd_nonneg k (Z.pos m) Hk ltac:(lia)) as Hlo.
  assert (He1 : -1074 <= e + k) by (unfold k, fexp64; lia).
  pose proof (second_shift (rnd k (Z.pos m)) (e + k) ltac:(lia) He1) as H2.
  destruct (shr_fexp prec emax (rnd k (Z.pos m)) (e + k) loc_Exact) as [mrs2 e2].
  unfold pack64. rewrite <- H2. cbn [fst snd].
  destruct (shr_m mrs2); reflexivity.
Qed.

(** ** Binary64 rounding is monotone *)

Lemma Zdigits2_bounds m :
  0 < m -> 2 ^ (Zdigits2 m - 1) <= m < 2 ^ Zdigits2 m.
Proof.
  intros H. destruct m as [|p|p]; [lia| |lia]. apply digits2_bounds.
Qed.

Lemma Zdigits2_pos m : 0 < m -> 0 < Zdigits2 m.
Proof. intros H. destruct m; cbn; lia. Qed.

Lemma Zdigits2_le m m' : 0 < m <= m' -> Zdigits2 m <= Zdigits2 m'.
Proof.
  intros H. pose proof (Zdigits2_bounds m ltac:(lia)).
  pose proof (Zdigits2_bounds m' ltac:(lia)).
  assert (2 ^ (Zdigits2 m - 1) < 2 ^ Zdigits2 m') as H2 by lia.
  apply Z.pow_lt_mono_r_iff in H2; [lia|lia|].
  pose proof (Zdigits2_pos m'). lia.
Qed.

Lemma Zdigits2_unique m d :
  2 ^ (d - 1) <= m < 2 ^ d -> 0 < d -> Zdigits2 m = d.
Proof.
  intros H Hd.
  assert (0 < m) by (pose proof (pow2_pos (d - 1)); lia).
  pose proof (Zdigits2_bounds m ltac:(lia)).
  pose proof (Zdigits2_pos m ltac:(lia)).
  assert (2 ^ (Zdigits2 m - 1) < 2 ^ d) as H3 by lia.
  assert (2 ^ (d - 1) < 2 ^ Zdigits2 m) as H4 by lia.
  apply Z.pow_lt_mono_r_iff in H3; [|lia|lia].
  apply Z.pow_lt_mono_r_iff in H4; [|lia|lia]. lia.
Qed.

Lemma Zdigits2_shift m j :
  0 < m -> 0 <= j -> Zdigits2 (m * 2 ^ j) = Zdigits2 m + j.
Proof.
  intros Hm Hj. pose proof (Zdigits2_bounds m Hm) as [H1 H2].
  pose proof (Zdigits2_pos m Hm). pose proof (pow2_pos j Hj).
  apply Zdigits2_unique; [|lia].
  replace (Zdigits2 m + j - 1) with (Zdigits2 m - 1 + j) by lia.
  rewrite !Z.pow_add_r by lia. nia.
Qed.

Lemma pack64_le a b :
  0 <= fst a -> 0 <= fst b -> lexle a b ->
  SFleb (pack64 a) (pack64 b) = true.
Proof.
  destruct a as [M E], b as [M' E']. unfold lexle, pack64. cbn [fst snd].
  intros HM HM0 [->|[HM' Hlex]].
  - destruct M' as [|p'|p']; [reflexivity| |lia].
    destruct (E' <=? 971); reflexivity.
  - destruct M as [|p|p]; [|clear HM|lia].
    + destruct M' as [|p'|p']; [reflexivity| |lia].
      destruct (E' <=? 971); reflexivity.
    + destruct M' as [|p'|p']; [lia| |lia].
      destruct (Z.leb_spec E 971), (Z.leb_spec E' 971); try reflexivity;
        [|lia].
      unfold SFleb, SFcompare.
      destruct Hlex as [Hlt|[-> Hle]].
      * apply Z.compare_lt_iff in Hlt. rewrite Hlt. reflexivity.
      * rewrite Z.compare_refl.
        change (Pos.compare_cont Eq p p') with (Pos.compare p p').
        destruct (Pos.compare_spec p p'); try reflexivity. lia.
Qed.

Lemma norm64_lexle m1 e1 m1' e1' :
  0 <= m1 <= 2 ^ 53 -> 0 <= m1' <= 2 ^ 53 ->
  (e1 = e1' /\ m1 <= m1') \/ (e1 < e1' /\ 2 ^ 52 <= m1') ->
  lexle (norm64 m1 e1) (norm64 m1' e1').
Proof.
  intros H1 H1' H. unfold norm64, lexle.
  assert (P52 : 0 < 2 ^ 52) by (apply pow2_pos; lia).
  assert (P53 : 2 ^ 53 = 2 * 2 ^ 52) by reflexivity.
  destruct (Z.eqb_spec m1 (2 ^ 53)), (Z.eqb_spec m1' (2 ^ 53)); cbn [fst snd];
    lia.
Qed.

Lemma norm64_fst_nonneg m1 e1 : 0 <= m1 -> 0 <= fst (norm64 m1 e1).
Proof.
  intros H. unfold norm64.
  destruct (m1 =? 2 ^ 53); cbn [fst]; [apply Z.pow_nonneg|]; lia.
Qed.

Lemma rnd_le_53 m e :
  0 < m -> 0 <= fexp64 (Zdigits2 m + e) - e ->
  0 <= rnd (fexp64 (Zdigits2 m + e) - e) m <= 2 ^ 53.
Proof.
  intros Hm Hk. split; [apply rnd_nonneg; lia|].
  apply rnd_upper; [assumption|].
  pose proof (Zdigits2_bounds m Hm) as [_ Hd].
  pose proof (Zdigits2_pos m Hm).
  eapply Z.lt_le_trans; [exact Hd|].
  rewrite <- Z.pow_add_r by lia.
  apply Z.pow_le_mono_r; [lia|]. unfold fexp64. lia.
Qed.

(** Rounding is monotone (same exponent of the two exact values). *)
Theorem round64_mono m m' e :
  0 < m <= m' -> 0 <= fexp64 (Zdigits2 m + e) - e ->
  SFleb (round64 m e) (round64 m' e) = true.
Proof.
  intros Hm Hk. unfold round64. cbv zeta.
  pose proof (Zdigits2_le m m' Hm) as Hd.
  set (k := fexp64 (Zdigits2 m + e) - e) in *.
  set (k' := fexp64 (Zdigits2 m' + e) - e).
  assert (Hkk : k <= k') by (unfold k, k', fexp64; lia).
  pose proof (rnd_le_53 m e ltac:(lia) Hk) as Hr. fold k in Hr.
  pose proof (rnd_le_53 m' e ltac:(lia) ltac:(fold k'; lia)) as Hr'.
  fold k' in Hr'.
  apply pack64_le; [apply norm64_fst_nonneg; lia..|].
  apply norm64_lexle; [assumption|assumption|].
  destruct (Z.eq_dec k k') as [E|E].
  - left. split; [lia|]. rewrite <- E. apply rnd_mono; lia.
  - right. split; [lia|].
    assert (Hk' : k' = Zdigits2 m' - 53) by (unfold k, k', fexp64 in *; lia).
    apply rnd_lower; [lia|].
    pose proof (Zdigits2_bounds m' ltac:(lia)) as [Hlo _].
    rewrite <- Z.pow_add_r by lia.
    replace (k' + 52) with (Zdigits2 m' - 1) by lia. exact Hlo.
Qed.

Lemma round64_scale m e j :
  0 < m -> 0 <= j -> 0 <= fexp64 (Zdigits2 m + e) - e ->
  round64 (m * 2 ^ j) (e - j) = round64 m e.
Proof.
  intros Hm Hj Hk. unfold round64. cbv zeta.
  rewrite Zdigits2_shift by assumption.
  replace (Zdigits2 m + j + (e - j)) with (Zdigits2 m + e) by lia.
  set (E := fexp64 (Zdigits2 m + e)) in *.
  replace (E - (e - j)) with (E - e + j) by lia.
  rewrite rnd_scale by lia. do 2 f_equal. lia.
Qed.

Lemma round64_shape m e :
  0 < m -> 0 <= fexp64 (Zdigits2 m + e) - e ->
  round64 m e = S754_zero false \/ round64 m e = S754_infinity false
  \/ exists p e', round64 m e = S754_finite false p e'.
Proof.
  intros Hm Hk. unfold round64. cbv zeta.
  pose proof (rnd_le_53 m e Hm Hk) as [H0 _].
  pose proof (norm64_fst_nonneg
                (rnd (fexp64 (Zdigits2 m + e) - e) m)
                (e + (fexp64 (Zdigits2 m + e) - e)) H0) as Hn.
  unfold pack64.
  destruct (fst (norm64 _ _)) as [|p|p]; [now left| |lia].
  destruct (_ <=? 971); [|now right; left].
  right; right. eauto.
Qed.

(** ** Sums and products of finite numbers *)

Lemma valid_finite s m e :
  valid_binary (S754_finite s m e) = true ->
  fexp64 (Zdigits2 (Z.pos m) + e) = e /\ e <= 971.
Proof.
  cbn [valid_binary]. unfold bounded, canonical_mantissa.
  rewrite fexp_fexp64. intros H. apply andb_true_iff in H as [H1 H2].
  apply Z.eqb_eq in H1. apply Z.leb_le in H2. split; [exact H1|exact H2].
Qed.

Lemma uval_pos s m e :
  valid_binary (S754_finite s m e) = true -> 0 < uval (S754_finite s m e).
Proof.
  intros H. apply valid_finite in H as [H _]. cbn [uval].
  assert (0 < 2 ^ (e + 1074)) by (apply pow2_pos; unfold fexp64 in H; lia).
  lia.
Qed.

Lemma round64_valid m e :
  valid_binary (S754_finite false m e) = true ->
  round64 (Z.pos m) e = S754_finite false m e.
Proof.
  intros H. apply valid_finite in H as [H He].
  unfold round64. cbv zeta. rewrite H, Z.sub_diag, rnd_0, Z.add_0_r.
  assert (Z.pos m < 2 ^ 53).
  { pose proof (Zdigits2_bounds (Z.pos m) ltac:(lia)) as [_ Hd].
    eapply Z.lt_le_trans; [exact Hd|].
    apply Z.pow_le_mono_r; [lia|]. unfold fexp64 in H. lia. }
  unfold norm64. destruct (Z.eqb_spec (Z.pos m) (2 ^ 53)); [lia|].
  unfold pack64. cbn [fst snd].
  destruct (Z.leb_spec e 971); [reflexivity|lia].
Qed.

(** A valid positive number is the rounding of its own value. *)
Lemma round64_uval m e :
  valid_binary (S754_finite false m e) = true ->
  round64 (uval (S754_finite false m e)) (-1074) = S754_finite false m e.
Proof.
  intros H. pose proof (valid_finite _ _ _ H) as [Hf He].
  cbn [uval]. replace (-1074) with (e - (e + 1074)) by lia.
  rewrite round64_scale; [now apply round64_valid|lia| |].
  - unfold fexp64 in Hf. lia.
  - rewrite Hf. lia.
Qed.

Lemma iter_xO m d : Z.pos (Pos.iter xO m d) = Z.pos m * 2 ^ Z.pos d.
Proof.
  induction d as [|d IH] using Pos.peano_ind.
  - cbn. lia.
  - rewrite Pos.iter_succ, Pos2Z.inj_xO, IH, Pos2Z.inj_succ, Z.pow_succ_r; lia.
Qed.

Lemma shl_align_fst m e e' :
  e' <= e -> Z.pos (fst (shl_align m e e')) = Z.pos m * 2 ^ (e - e').
Proof.
  intros H. unfold shl_align.
  destruct (e' - e) as [|d|d] eqn:E; cbn [fst].
  - replace (e - e') with 0 by lia. lia.
  - lia.
  - rewrite iter_xO. f_equal. f_equal. lia.
Qed.

Lemma shl_align_none m e e' : e <= e' -> shl_align m e e' = (m, e).
Proof.
  intros H. unfold shl_align. destruct (e' - e) eqn:E; [reflexivity..|lia].
Qed.

(** Where the sum or the product of two valid numbers is rounded from, the
    first shift of the rounding is not negative. *)
Lemma fexp64_mono a b : a <= b -> fexp64 a <= fexp64 b.
Proof. unfold fexp64. lia. Qed.

Theorem SFadd_finite mx ex my ey :
  valid_binary (S754_finite false mx ex) = true ->
  valid_binary (S754_finite false my ey) = true ->
  SF64add (S754_finite false mx ex) (S754_finite false my ey) =
  round64 (uval (S754_finite false mx ex) + uval (S754_finite false my ey)) (-1074).
Proof.
  intros Hx Hy.
  pose proof (valid_finite _ _ _ Hx) as [Hfx Hex].
  pose proof (valid_finite _ _ _ Hy) as [Hfy Hey].
  assert (Hlx : -1074 <= ex) by (unfold fexp64 in Hfx; lia).
  assert (Hly : -1074 <= ey) by (unfold fexp64 in Hfy; lia).
  unfold SF64add, SFadd. cbv zeta. cbn [cond_Zopp].
  set (ez := Z.min ex ey).
  rewrite !shl_align_fst by (unfold ez; lia).
  set (S := Z.pos mx * 2 ^ (ex - ez) + Z.pos my * 2 ^ (ey - ez)).
  assert (Px : 0 < 2 ^ (ex - ez)) by (apply pow2_pos; unfold ez; lia).
  assert (Py : 0 < 2 ^ (ey - ez)) by (apply pow2_pos; unfold ez; lia).
  assert (HS : 0 < S) by (unfold S; nia).
  assert (Hk : 0 <= fexp64 (Zdigits2 S + ez) - ez).
  { destruct (Z.min_spec ex ey) as [[_ E]|[_ E]]; fold ez in E.
    - assert (Z.pos mx <= S).
      { unfold S. rewrite E, Z.sub_diag. cbn [Z.pow]. nia. }
      pose proof (Zdigits2_le (Z.pos mx) S ltac:(lia)).
      pose proof (fexp64_mono (Zdigits2 (Z.pos mx) + ex) (Zdigits2 S + ex)
                    ltac:(lia)).
      rewrite E. lia.
    - assert (Z.pos my <= S).
      { unfold S. rewrite E, Z.sub_diag. cbn [Z.pow]. nia. }
      pose proof (Zdigits2_le (Z.pos my) S ltac:(lia)).
      pose proof (fexp64_mono (Zdigits2 (Z.pos my) + ey) (Zdigits2 S + ey)
                    ltac:(lia)).
      rewrite E. lia. }
  assert (Huv : uval (S754_finite false mx ex) + uval (S754_finite false my ey) =
               S * 2 ^ (ez + 1074)).
  { cbn [uval]. unfold S. rewrite Z.mul_add_distr_r, <- !Z.mul_assoc.
    rewrite <- !Z.pow_add_r by (unfold ez; lia).
    f_equal; do 2 f_equal; lia. }
  rewrite Huv. replace (-1074) with (ez - (ez + 1074)) by lia.
  rewrite round64_scale by (assumption || (unfold ez; lia)).
  destruct S as [|s|s]; [lia| |lia].
  unfold binary_normalize, binary_round.
  rewrite fexp_fexp64.
  rewrite shl_align_none by (cbn [Zdigits2] in Hk; lia).
  apply binary_round_aux_round64. exact Hk.
Qed.

Theorem SFmul_finite mx ex my ey :
  valid_binary (S754_finite false mx ex) = true ->
  valid_binary (S754_finite false my ey) = true ->
  SF64mul (S754_finite false mx ex) (S754_finite false my ey) =
  round64 (uval (S754_finite false mx ex) * uval (S754_finite false my ey)) (-2148).
Proof.
  intros Hx Hy.
  pose proof (valid_finite _ _ _ Hx) as [Hfx Hex].
  pose proof (valid_finite _ _ _ Hy) as [Hfy Hey].
  assert (Hlx : -1074 <= ex) by (unfold fexp64 in Hfx; lia).
  assert (Hly : -1074 <= ey) by (unfold fexp64 in Hfy; lia).
  unfold SF64mul, SFmul. cbn [xorb].
  assert (Hk : 0 <= fexp64 (Zdigits2 (Z.pos (mx * my)) + (ex + ey)) - (ex + ey)).
  { pose proof (Zdigits2_bounds (Z.pos mx) ltac:(lia)) as [Hbx _].
    pose proof (Zdigits2_bounds (Z.pos my) ltac:(lia)) as [Hby _].
    pose proof (Zdigits2_pos (Z.pos mx) ltac:(lia)).
    pose proof (Zdigits2_pos (Z.pos my) ltac:(lia)).
    assert (Hd : Zdigits2 (Z.pos mx) + Zdigits2 (Z.pos my) - 2
                 < Zdigits2 (Z.pos (mx * my))).
    { apply digits2_lower. rewrite Pos2Z.inj_mul.
      replace (Zdigits2 (Z.pos mx) + Zdigits2 (Z.pos my) - 2)
        with ((Zdigits2 (Z.pos mx) - 1) + (Zdigits2 (Z.pos my) - 1)) by lia.
      rewrite Z.pow_add_r by lia.
      pose proof (pow2_pos (Zdigits2 (Z.pos mx) - 1) ltac:(lia)).
      pose proof (pow2_pos (Zdigits2 (Z.pos my) - 1) ltac:(lia)). nia. }
    unfold fexp64 in *. lia. }
  rewrite binary_round_aux_round64 by exact Hk.
  assert (Huv : uval (S754_finite false mx ex) * uval (S754_finite false my ey) =
               Z.pos (mx * my) * 2 ^ (ex + ey + 2148)).
  { cbn [uval]. rewrite Pos2Z.inj_mul.
    replace (ex + ey + 2148) with ((ex + 1074) + (ey + 1074)) by lia.
    rewrite (Z.pow_add_r 2 (ex + 1074) (ey + 1074)) by lia. ring. }
  rewrite Huv. replace (-2148) with (ex + ey - (ex + ey + 2148)) by lia.
  rewrite round64_scale by lia. reflexivity.
Qed.

(** ** The order of non-negative numbers *)

Lemma nnfin_nn x : nnfin x -> nn x.
Proof.
  intros [Hv H]. split; [exact Hv|].
  destruct x as [s|s| |[] m e]; cbn in *; try contradiction; exact I.
Qed.

Lemma nn_cases x :
  nn x -> nnfin x \/ x = S754_infinity false.
Proof.
  intros [Hv H]. destruct x as [s|[]| |[] m e]; cbn in H; try contradiction;
    try (left; split; [exact Hv|exact I]); now right.
Qed.

Lemma SFleb_infinity x : nnshape x -> SFleb x (S754_infinity false) = true.
Proof. destruct x as [s|[]| |[] m e]; cbn; intros H; try contradiction; reflexivity. Qed.

Lemma SFleb_zero s x : nnshape x -> SFleb (S754_zero s) x = true.
Proof. destruct x as [s'|[]| |[] m e]; cbn; intros H; try contradiction; reflexivity. Qed.

Lemma SFleb_infinity_l x :
  nn x -> SFleb (S754_infinity false) x = true -> x = S754_infinity false.
Proof.
  intros Hx H. destruct (nn_cases x Hx) as [[_ Hf]|E]; [|exact E].
  destruct x as [s|s| |[] m e]; cbn in Hf; try contradiction; discriminate H.
Qed.

Lemma uval_nonneg x : 0 <= uval x.
Proof.
  destruct x as [s|s| |s m e]; cbn [uval]; try lia.
Qed.

Lemma round64_units_mono K v v' :
  1074 <= K -> 0 < v <= v' ->
  SFleb (round64 v (- K)) (round64 v' (- K)) = true.
Proof.
  intros HK Hv. apply round64_mono; [exact Hv|]. unfold fexp64. lia.
Qed.

Lemma round64_units_shape K v :
  1074 <= K -> 0 < v -> nnshape (round64 v (- K)).
Proof.
  intros HK Hv.
  destruct (round64_shape v (- K) Hv ltac:(unfold fexp64; lia))
    as [-> | [-> | (p & e' & ->)]]; exact I.
Qed.

Lemma rounds_to_shape K f v : 1074 <= K -> rounds_to K f v -> nnshape f.
Proof.
  intros HK [[_ [s ->]]|[Hv ->]]; [exact I|]. now apply round64_units_shape.
Qed.

Lemma rounds_to_le K f v f' v' :
  1074 <= K -> rounds_to K f v -> rounds_to K f' v' -> v <= v' ->
  SFleb f f' = true.
Proof.
  intros HK Hf Hf' Hv. pose proof (rounds_to_shape K f' v' HK Hf') as Hs'.
  destruct Hf as [[_ [s ->]]|[H0 ->]]; [now apply SFleb_zero|].
  destruct Hf' as [[-> _]|[H0' ->]]; [lia|].
  apply round64_units_mono; lia.
Qed.

Lemma nnfin_rounds_to x : nnfin x -> rounds_to 1074 x (uval x).
Proof.
  intros [Hv H]. destruct x as [s|s| |[] m e]; cbn in H; try contradiction.
  - left. split; [reflexivity|now exists s].
  - right. split; [now apply uval_pos|]. symmetry. now apply round64_uval.
Qed.

Lemma SFadd_rounds_to x y :
  nnfin x -> nnfin y -> rounds_to 1074 (SF64add x y) (uval x + uval y).
Proof.
  intros [Hvx Hsx] [Hvy Hsy].
  destruct x as [sx|sx| |[] mx ex]; cbn in Hsx; try contradiction;
    destruct y as [sy|sy| |[] my ey]; cbn in Hsy; try contradiction.
  - left. split; [reflexivity|]. destruct sx, sy; cbn; eauto.
  - apply (nnfin_rounds_to (S754_finite false my ey)). split; [assumption|exact I].
  - replace (uval (S754_finite false mx ex) + uval (S754_zero sy))
      with (uval (S754_finite false mx ex)) by (cbn [uval]; lia).
    apply (nnfin_rounds_to (S754_finite false mx ex)). split; [assumption|exact I].
  - right. split.
    + pose proof (uval_pos _ _ _ Hvx). pose proof (uval_pos _ _ _ Hvy). lia.
    + now apply SFadd_finite.
Qed.

Lemma SFmul_rounds_to x y :
  nnfin x -> nnfin y -> rounds_to 2148 (SF64mul x y) (uval x * uval y).
Proof.
  intros [Hvx Hsx] [Hvy Hsy].
  destruct x as [sx|sx| |[] mx ex]; cbn in Hsx; try contradiction;
    destruct y as [sy|sy| |[] my ey]; cbn in Hsy; try contradiction.
  - left. split; [reflexivity|]. cbn. eauto.
  - left. split; [reflexivity|]. cbn. eauto.
  - left. split; [cbn [uval]; lia|]. cbn. eauto.
  - right. split.
    + pose proof (uval_pos _ _ _ Hvx). pose proof (uval_pos _ _ _ Hvy). nia.
    + now apply SFmul_finite.
Qed.

(** The order of two valid finite numbers is the order of their values. *)
Lemma SFleb_antisym m e m' e' :
  SFleb (S754_finite false m e) (S754_finite false m' e') = true ->
  SFleb (S754_finite false m' e') (S754_finite false m e) = true ->
  m = m' /\ e = e'.
Proof.
  unfold SFleb, SFcompare.
  change (Pos.compare_cont Eq m m') with (Pos.compare m m').
  change (Pos.compare_cont Eq m' m) with (Pos.compare m' m).
  rewrite (Z.compare_antisym e e'), (Pos.compare_antisym m m').
  destruct (e ?= e') eqn:E; destruct (m ?= m')%positive eqn:M;
    cbn [CompOpp]; intros H1 H2; try discriminate.
  apply Z.compare_eq in E. apply Pos.compare_eq in M. now split.
Qed.

Lemma SFleb_uval x x' : nnfin x -> nnfin x' -> SFleb x x' = true -> uval x <= uval x'.
Proof.
  intros Hx Hx' Hle.
  destruct (Z.le_gt_cases (uval x) (uval x')) as [H|H]; [exact H|exfalso].
  pose proof (rounds_to_le 1074 x' (uval x') x (uval x) ltac:(lia)
                (nnfin_rounds_to x' Hx') (nnfin_rounds_to x Hx) ltac:(lia))
    as Hge.
  destruct Hx as [Hv Hs], Hx' as [Hv' Hs'].
  destruct x as [s|s| |[] m e]; cbn in Hs; try contradiction.
  - pose proof (uval_nonneg x'). cbn [uval] in H. lia.
  - destruct x' as [s'|s'| |[] m' e']; cbn in Hs'; try contradiction.
    + discriminate Hle.
    + destruct (SFleb_antisym _ _ _ _ Hle Hge) as [-> ->]. lia.
Qed.

(** ** Addition and multiplication are monotone *)

Lemma SFleb_nnfin x x' : nn x -> nnfin x' -> SFleb x x' = true -> nnfin x.
Proof.
  intros Hx Hx' Hle. destruct (nn_cases x Hx) as [H| ->]; [exact H|].
  apply SFleb_infinity_l in Hle; [|now apply nnfin_nn].
  subst x'. destruct Hx' as [_ []].
Qed.

Lemma SFadd_infinity_l y :
  nnshape y -> SF64add (S754_infinity false) y = S754_infinity false.
Proof. destruct y as [s|[]| |[] m e]; cbn; intros H; try contradiction; reflexivity. Qed.

Lemma SFadd_infinity_r x :
  nnshape x -> SF64add x (S754_infinity false) = S754_infinity false.
Proof. destruct x as [s|[]| |[] m e]; cbn; intros H; try contradiction; reflexivity. Qed.

Lemma SFadd_nnshape x y : nn x -> nn y -> nnshape (SF64add x y).
Proof.
  intros Hx Hy.
  destruct (nn_cases x Hx) as [Fx| ->];
    [|rewrite SFadd_infinity_l by apply Hy; exact I].
  destruct (nn_cases y Hy) as [Fy| ->];
    [|rewrite SFadd_infinity_r by apply Hx; exact I].
  eapply rounds_to_shape; [|now apply SFadd_rounds_to]. lia.
Qed.

(** Addition is monotone on the numbers that are neither NaN nor negative. *)
Theorem SFadd_mono x x' y y' :
  nn x -> nn x' -> nn y -> nn y' ->
  SFleb x x' = true -> SFleb y y' = true ->
  SFleb (SF64add x y) (SF64add x' y') = true.
Proof.
  intros Hx Hx' Hy Hy' Lx Ly.
  pose proof (SFadd_nnshape x y Hx Hy) as Hs.
  destruct (nn_cases x' Hx') as [Fx'| ->];
    [|rewrite SFadd_infinity_l by apply Hy'; now apply SFleb_infinity].
  destruct (nn_cases y' Hy') as [Fy'| ->];
    [|rewrite SFadd_infinity_r by apply Hx'; now apply SFleb_infinity].
  pose proof (SFleb_nnfin x x' Hx Fx' Lx) as Fx.
  pose proof (SFleb_nnfin y y' Hy Fy' Ly) as Fy.
  apply (rounds_to_le 1074 _ (uval x + uval y) _ (uval x' + uval y')); [lia| | |].
  - now apply SFadd_rounds_to.
  - now apply SFadd_rounds_to.
  - pose proof (SFleb_uval x x' Fx Fx' Lx). pose proof (SFleb_uval y y' Fy Fy' Ly).
    lia.
Qed.

Lemma SFmul_infinity_l c :
  nnshape c -> SF64mul (S754_infinity false) c <> S754_nan ->
  SF64mul (S754_infinity false) c = S754_infinity false.
Proof.
  destruct c as [s|[]| |[] m e]; cbn; intros H Hn; try contradiction;
    try reflexivity; now elim Hn.
Qed.

Lemma SFmul_infinity_r x :
  nnshape x -> SF64mul x (S754_infinity false) <> S754_nan ->
  SF64mul x (S754_infinity false) = S754_infinity false.
Proof.
  destruct x as [s|[]| |[] m e]; cbn; intros H Hn; try contradiction;
    try reflexivity; now elim Hn.
Qed.

Lemma SFmul_nnshape x c :
  nn x -> nn c -> SF64mul x c <> S754_nan -> nnshape (SF64mul x c).
Proof.
  intros Hx Hc Hn.
  destruct (nn_cases x Hx) as [Fx| ->];
    [|rewrite SFmul_infinity_l by (apply Hc || exact Hn); exact I].
  destruct (nn_cases c Hc) as [Fc| ->];
    [|rewrite SFmul_infinity_r by (apply Hx || exact Hn); exact I].
  eapply rounds_to_shape; [|now apply SFmul_rounds_to]. lia.
Qed.

(** Multiplication by a number that is neither NaN nor negative is monotone,
    as long as no product is NaN ([Infinity * 0]). *)
Theorem SFmul_mono x x' c :
  nn x -> nn x' -> nn c -> SFleb x x' = true ->
  SF64mul x c <> S754_nan -> SF64mul x' c <> S754_nan ->
  SFleb (SF64mul x c) (SF64mul x' c) = true.
Proof.
  intros Hx Hx' Hc Lx Hn Hn'.
  pose proof (SFmul_nnshape x c Hx Hc Hn) as Hs.
  destruct (nn_cases c Hc) as [Fc| ->].
  2:{ rewrite (SFmul_infinity_r x') by (apply Hx' || exact Hn').
      now apply SFleb_infinity. }
  destruct (nn_cases x' Hx') as [Fx'| ->].
  2:{ rewrite SFmul_infinity_l by (apply Hc || exact Hn').
      now apply SFleb_infinity. }
  pose proof (SFleb_nnfin x x' Hx Fx' Lx) as Fx.
  apply (rounds_to_le 2148 _ (uval x * uval c) _ (uval x' * uval c)); [lia| | |].
  - now apply SFmul_rounds_to.
  - now apply SFmul_rounds_to.
  - pose proof (SFleb_uval x x' Fx Fx' Lx). pose proof (uval_nonneg c). nia.
Qed.

Lemma NN_nn a : NN a -> nn (Prim2SF a).
Proof. intros H. split; [apply Prim2SF_valid|exact H]. Qed.

Lemma SFeqb_refl x : x <> S754_nan -> SFeqb x x = true.
Proof.
  destruct x as [s|s| |s m e]; intros H; try reflexivity.
  - destruct s; reflexivity.
  - now elim H.
  - unfold SFeqb, SFcompare.
    destruct s; rewrite Z.compare_refl, Pos.compare_cont_refl; reflexivity.
Qed.

Lemma is_nan_false a : is_nan a = false <-> Prim2SF a <> S754_nan.
Proof.
  unfold is_nan. rewrite eqb_spec. split.
  - intros H E. rewrite E in H. discriminate H.
  - intros H. now rewrite SFeqb_refl.
Qed.

Lemma NN_not_nan a : NN a -> is_nan a = false.
Proof.
  intros H. apply is_nan_false. intros E. unfold NN in H. now rewrite E in H.
Qed.

Theorem add_le a a' b b' :
  NN a -> NN a' -> NN b -> NN b' ->
  (a <=? a')%float = true -> (b <=? b')%float = true ->
  NN (a + b) /\ NN (a' + b') /\ (a + b <=? a' + b')%float = true.
Proof.
  intros Ha Ha' Hb Hb'. rewrite !leb_spec. unfold NN. rewrite !add_spec.
  intros La Lb. apply NN_nn in Ha, Ha', Hb, Hb'.
  split; [now apply SFadd_nnshape|]. split; [now apply SFadd_nnshape|].
  now apply SFadd_mono.
Qed.

Theorem mul_le a a' c :
  NN a -> NN a' -> NN c -> (a <=? a')%float = true ->
  is_nan (a * c) = false -> is_nan (a' * c) = false ->
  NN (a * c) /\ NN (a' * c) /\ (a * c <=? a' * c)%float = true.
Proof.
  intros Ha Ha' Hc. rewrite !is_nan_false, !leb_spec. unfold NN.
  rewrite !mul_spec. intros La Hn Hn'. apply NN_nn in Ha, Ha', Hc.
  split; [now apply SFmul_nnshape|]. split; [now apply SFmul_nnshape|].
  now apply SFmul_mono.
Qed.

(** ** Division by a constant does not overflow *)

Lemma shr_quot_step m k mrs :
  0 <= m -> shr_quot m k mrs -> shr_quot m (k + 1) (shr_1 mrs).
Proof.
  intros Hm [Hk Hq]. destruct mrs as [q r s]. cbn [shr_m] in Hq.
  assert (0 <= q) by (subst q; apply Z.div_pos; [lia|now apply pow2_pos]).
  rewrite shr_1_nonneg by assumption. split; [lia|]. cbn [shr_m].
  rewrite Hq, Z.pow_add_r, Z.pow_1_r by lia.
  apply Z.div_div; [|lia]. pose proof (pow2_pos k Hk). lia.
Qed.

Lemma shr_quot_iter m p : 0 <= m -> forall k mrs,
  shr_quot m k mrs -> shr_quot m (k + Z.pos p) (iter_pos shr_1 p mrs).
Proof.
  intros Hm. induction p as [p IH|p IH|]; intros k mrs H; cbn [iter_pos].
  - replace (k + Z.pos p~1) with (k + 1 + Z.pos p + Z.pos p) by lia.
    apply IH, IH, shr_quot_step; assumption.
  - replace (k + Z.pos p~0) with (k + Z.pos p + Z.pos p) by lia.
    apply IH, IH, H.
  - apply shr_quot_step; assumption.
Qed.

Lemma round_nearest_even_bounds q l :
  q <= round_nearest_even q l <= q + 1.
Proof.
  destruct l as [|[]]; cbn [round_nearest_even]; try lia.
  destruct (Z.even q); lia.
Qed.

(** The first shift of the rounding, from any location: at most 53 digits are
    left, at the exponent [max ez (fexp ...)]. *)
Lemma first_shift mz ez lz :
  0 <= mz ->
  let '(mrs, e1) := shr_fexp prec emax mz ez lz in
  0 <= shr_m mrs < 2 ^ 53
  /\ e1 = Z.max ez (fexp64 (Zdigits2 mz + ez)).
Proof.
  intros Hm. unfold shr_fexp. rewrite fexp_fexp64.
  set (n := fexp64 (Zdigits2 mz + ez) - ez).
  assert (Hinit : shr_m (shr_record_of_loc mz lz) = mz)
    by (destruct lz as [|[]]; reflexivity).
  assert (Hlt : mz < 2 ^ (Z.max n 0 + 53)).
  { destruct (Z.eq_dec mz 0) as [->|Hne]; [apply pow2_pos; lia|].
    pose proof (Zdigits2_bounds mz ltac:(lia)) as [_ Hd].
    pose proof (Zdigits2_pos mz ltac:(lia)).
    eapply Z.lt_le_trans; [exact Hd|].
    apply Z.pow_le_mono_r; [lia|]. unfold n, fexp64. lia. }
  unfold shr. destruct n as [|p|p] eqn:En.
  - rewrite Hinit. split; [split; [lia|exact Hlt]|lia].
  - pose proof (shr_quot_iter mz p Hm 0 (shr_record_of_loc mz lz)) as Hq.
    destruct Hq as [_ Hq]; [split; [lia|]; rewrite Hinit, Z.pow_0_r, Z.div_1_r;
                            reflexivity|].
    rewrite Hq. cbn [Z.add]. split; [|lia]. split.
    + apply Z.div_pos; [lia|apply pow2_pos; lia].
    + apply Z.div_lt_upper_bound; [apply pow2_pos; lia|].
      rewrite <- Z.pow_add_r by lia.
      replace (Z.max (Z.pos p) 0 + 53) with (Z.pos p + 53) in Hlt by lia.
      exact Hlt.
  - rewrite Hinit. split; [split; [lia|exact Hlt]|lia].
Qed.

(** Rounding a non-negative mantissa from any location gives a zero, a
    positive finite number or [+Infinity], at an exponent that is known. *)
Lemma binary_round_aux_pack mz ez lz :
  0 <= mz ->
  exists m1 e2,
    binary_round_aux prec emax false mz ez lz = pack64 (m1, e2)
    /\ 0 <= m1
    /\ e2 <= Z.max ez (fexp64 (Zdigits2 mz + ez)) + 1.
Proof.
  intros Hm. unfold binary_round_aux.
  pose proof (first_shift mz ez lz Hm) as H1.
  destruct (shr_fexp prec emax mz ez lz) as [mrs e1].
  destruct H1 as [Hq He1].
  pose proof (round_nearest_even_bounds (shr_m mrs) (loc_of_shr_record mrs))
    as Hr.
  set (m1 := round_nearest_even (shr_m mrs) (loc_of_shr_record mrs)) in *.
  assert (He1' : -1074 <= e1) by (unfold fexp64 in He1; lia).
  pose proof (second_shift m1 e1 ltac:(lia) He1') as H2.
  destruct (shr_fexp prec emax m1 e1 loc_Exact) as [mrs2 e2].
  exists (shr_m mrs2), e2. split; [|split].
  - unfold pack64. cbn [fst snd]. destruct (shr_m mrs2); reflexivity.
  - apply (f_equal fst) in H2. cbn [fst] in H2. rewrite H2.
    apply norm64_fst_nonneg. lia.
  - apply (f_equal snd) in H2. cbn [snd] in H2. rewrite H2.
    unfold norm64. destruct (m1 =? 2 ^ 53); cbn [snd]; lia.
Qed.

Lemma pack64_finite m e :
  0 <= m -> e <= 971 ->
  match pack64 (m, e) with
  | S754_zero _ | S754_finite false _ _ => True
  | _ => False
  end.
Proof.
  intros H He. unfold pack64. cbn [fst snd]. destruct m as [|p|p]; [exact I| |lia].
  destruct (Z.leb_spec e 971); [exact I|lia].
Qed.

(** The quotient the division rounds: not negative, and not too large. *)
Lemma SFdiv_core_bounds mx ex my ey :
  let '(mz, ez, lz) :=
    SFdiv_core_binary prec emax (Z.pos mx) ex (Z.pos my) ey in
  let dv := Zdigits2 (Z.pos mx) + ex - (Zdigits2 (Z.pos my) + ey) in
  0 <= mz /\ ez <= fexp64 dv /\ (mz = 0 \/ Zdigits2 mz + ez <= dv + 1).
Proof.
  unfold SFdiv_core_binary. cbv zeta. rewrite fexp_fexp64.
  set (dv := Zdigits2 (Z.pos mx) + ex - (Zdigits2 (Z.pos my) + ey)).
  set (e' := Z.min (fexp64 dv) (ex - ey)).
  set (s := ex - ey - e').
  assert (Hs : 0 <= s) by (unfold s, e'; lia).
  set (m' := match s with
             | 0 => Z.pos mx
             | Z.pos _ => Z.shiftl (Z.pos mx) s
             | Z.neg _ => 0
             end).
  assert (Hm' : m' = Z.pos mx * 2 ^ s).
  { unfold m'. destruct s as [|p|p] eqn:Es; [cbn; lia| |lia].
    now rewrite Z.shiftl_mul_pow2. }
  pose proof (Z.div_eucl_eq m' (Z.pos my) ltac:(lia)) as Heq.
  pose proof (Z.mod_pos_bound m' (Z.pos my) ltac:(lia)) as Hmod.
  unfold Z.modulo in Hmod.
  destruct (Z.div_eucl m' (Z.pos my)) as [q r]. cbn [fst snd] in *.
  pose proof (pow2_pos s Hs) as P2s.
  assert (Hq : 0 <= q) by nia.
  split; [exact Hq|]. split; [unfold e'; lia|].
  destruct (Z.eq_dec q 0) as [->|Hq0]; [now left|right].
  pose proof (Zdigits2_bounds (Z.pos mx) ltac:(lia)) as [_ Hdx].
  pose proof (Zdigits2_bounds (Z.pos my) ltac:(lia)) as [Hdy _].
  pose proof (Zdigits2_pos (Z.pos mx) ltac:(lia)) as Hpx.
  pose proof (Zdigits2_pos (Z.pos my) ltac:(lia)) as Hpy.
  assert (Hlt : q * 2 ^ (Zdigits2 (Z.pos my) - 1)
                < 2 ^ (Zdigits2 (Z.pos mx) + s)).
  { rewrite Z.pow_add_r by lia.
    pose proof (pow2_pos (Zdigits2 (Z.pos my) - 1) ltac:(lia)). nia. }
  assert (Hd : Zdigits2 q <= Zdigits2 (Z.pos mx) + s - Zdigits2 (Z.pos my) + 1).
  { pose proof (Zdigits2_bounds q ltac:(lia)) as [Hlo _].
    pose proof (Zdigits2_pos q ltac:(lia)).
    assert (Hc : 2 ^ (Zdigits2 q - 1 + (Zdigits2 (Z.pos my) - 1))
                 < 2 ^ (Zdigits2 (Z.pos mx) + s)).
    { rewrite Z.pow_add_r by lia.
      pose proof (pow2_pos (Zdigits2 (Z.pos my) - 1) ltac:(lia)). nia. }
    apply Z.pow_lt_mono_r_iff in Hc; lia. }
  unfold dv, s in *. lia.
Qed.

(** A finite non-negative number divided by a positive finite number that is
    at least [8] is finite: no overflow. *)
Theorem SFdiv_nnfin x my ey :
  nnfin x -> valid_binary (S754_finite false my ey) = true ->
  4 <= Zdigits2 (Z.pos my) + ey ->
  match SF64div x (S754_finite false my ey) with
  | S754_zero _ | S754_finite false _ _ => True
  | _ => False
  end.
Proof.
  intros [Hvx Hsx] Hvy Hy.
  destruct x as [sx|sx| |[] mx ex]; cbn in Hsx; try contradiction.
  - exact I.
  - unfold SF64div, SFdiv. cbn [xorb].
    pose proof (SFdiv_core_bounds mx ex my ey) as HB.
    destruct (SFdiv_core_binary prec emax (Z.pos mx) ex (Z.pos my) ey)
      as [[mz ez] lz].
    cbv zeta in HB. destruct HB as (Hmz & Hez & Hdz).
    pose proof (valid_finite _ _ _ Hvx) as [Hfx Hex].
    assert (Hdx : Zdigits2 (Z.pos mx) + ex <= 1024) by (unfold fexp64 in Hfx; lia).
    destruct (binary_round_aux_pack mz ez lz Hmz) as (m1 & e2 & -> & Hm1 & He2).
    apply pack64_finite; [exact Hm1|].
    assert (Zdigits2 mz + ez <= 1021).
    { destruct Hdz as [->|Hdz]; [cbn [Zdigits2]|]; unfold fexp64 in Hez; lia. }
    unfold fexp64 in *. lia.
Qed.

(** ** Deposit dominance *)

Lemma nonneg_finite_nnfin v : nonneg_finite v = true -> nnfin (Prim2SF v).
Proof.
  intros H. split; [apply Prim2SF_valid|].
  destruct (nonneg_finite_shape v H) as [[s ->]|(m & e & ->)]; exact I.
Qed.

Lemma nnfin_NN v : nnfin (Prim2SF v) -> NN v.
Proof. intros H. apply nnfin_nn in H. apply H. Qed.

Lemma nnfin_shape_valid v :
  match Prim2SF v with
  | S754_zero _ | S754_finite false _ _ => True
  | _ => False
  end -> nnfin (Prim2SF v).
Proof. intros H. split; [apply Prim2SF_valid|exact H]. Qed.

(** The monthly rate [(r / 100) / 12] of a finite rate [r >= 0] is finite and
    not negative. *)
Lemma monthly_rate_nnfin r :
  nonneg_finite r = true -> nnfin (Prim2SF ((r / 100) / 12)).
Proof.
  intros H. apply nonneg_finite_nnfin in H.
  assert (H100 : nnfin (Prim2SF (r / 100))).
  { apply nnfin_shape_valid. rewrite div_spec.
    change (Prim2SF 100) with (S754_finite false 7036874417766400 (-46)).
    apply SFdiv_nnfin; [exact H|reflexivity|cbn; lia]. }
  apply nnfin_shape_valid. rewrite div_spec.
  change (Prim2SF 12) with (S754_finite false 6755399441055744 (-49)).
  apply SFdiv_nnfin; [exact H100|reflexivity|cbn; lia].
Qed.

Lemma month_closing_with d r ob :
  month_closing d r ob = closing_with d ((r / 100) / 12) ob.
Proof. reflexivity. Qed.

Lemma SFadd_nan_r x : SF64add x S754_nan = S754_nan.
Proof. destruct x as [s|s| |s m e]; reflexivity. Qed.

(** NaN is sticky: a closing balance that is a number comes from an opening
    balance and an interest that are numbers. *)
Lemma closing_not_nan d c ob :
  is_nan (closing_with d c ob) = false ->
  is_nan ob = false /\ is_nan ((ob + d) * c) = false.
Proof.
  unfold closing_with. rewrite !is_nan_false, add_spec. intros H.
  assert (Hi : Prim2SF ((ob + d) * c) <> S754_nan).
  { intros E. apply H. rewrite E. apply SFadd_nan_r. }
  split; [|exact Hi].
  intros E. apply Hi. rewrite mul_spec, add_spec, E. reflexivity.
Qed.

Lemma NN_zero : NN 0.
Proof. exact I. Qed.

Lemma leb_refl a : NN a -> (a <=? a)%float = true.
Proof.
  intros H. rewrite leb_spec. unfold NN in H.
  destruct (Prim2SF a) as [s|[]| |[] m e]; cbn in H; try contradiction;
    try reflexivity.
  unfold SFleb, SFcompare. now rewrite Z.compare_refl, Pos.compare_cont_refl.
Qed.



(** The run without the deposit never meets NaN.  With a zero rate the
    balance stays finite; with a positive one it stays a number. *)
Lemma closing_zero_rate c f :
  (exists s, Prim2SF c = S754_zero s) -> nnfin (Prim2SF f) ->
  nnfin (Prim2SF (closing_with 0 c f)).
Proof.
  intros [s Hc] [_ Hf]. apply nnfin_shape_valid. unfold closing_with.
  rewrite add_spec, mul_spec, add_spec, Hc.
  change (Prim2SF 0) with (S754_zero false).
  destruct (Prim2SF f) as [s'|s'| |[] m e]; cbn in Hf; try contradiction.
  - destruct s', s; exact I.
  - destruct s; exact I.
Qed.

Lemma closing_pos_rate c f :
  (exists m e, Prim2SF c = S754_finite false m e) -> NN f ->
  NN (closing_with 0 c f).
Proof.
  intros (m & e & Hc) Hf.
  assert (Hcn : nn (Prim2SF c)).
  { split; [apply Prim2SF_valid|]. rewrite Hc. exact I. }
  destruct (add_le f f 0 0 Hf Hf NN_zero NN_zero (leb_refl f Hf) eq_refl)
    as (Ha & _ & _).
  assert (Hi : NN ((f + 0) * c)).
  { unfold NN. rewrite mul_spec. apply SFmul_nnshape.
    - now apply NN_nn.
    - exact Hcn.
    - destruct (nn_cases _ (NN_nn _ Ha)) as [Fa|E].
      + assert (Fc : nnfin (Prim2SF c)).
        { split; [apply Prim2SF_valid|]. rewrite Hc. exact I. }
        pose proof (SFmul_rounds_to _ _ Fa Fc) as Hr.
        apply (rounds_to_shape 2148) in Hr; [|lia].
        intros E. rewrite E in Hr. exact Hr.
      + rewrite E, Hc. discriminate. }
  unfold closing_with.
  destruct (add_le _ _ _ _ Ha Ha Hi Hi (leb_refl _ Ha) (leb_refl _ Hi))
    as (H & _ & _).
  exact H.
Qed.

Lemma balance_after_S d r k ob :
  balance_after d r (S k) ob = month_closing d r (balance_after d r k ob).
Proof.
  replace (S k) with (k + 1)%nat by lia. rewrite balance_after_add.
  reflexivity.
Qed.

Lemma no_deposit_run_NN r ib k :
  nonneg_finite r = true -> nonneg_finite ib = true ->
  NN (balance_after 0 r k ib).
Proof.
  intros Hr Hib. pose proof (monthly_rate_nnfin r Hr) as Hc.
  pose proof (nonneg_finite_nnfin ib Hib) as Hi.
  destruct Hc as [Hcv Hcs].
  destruct (Prim2SF ((r / 100) / 12)) as [s|s| |[] m e] eqn:Ec; cbn in Hcs;
    try contradiction.
  - apply nnfin_NN. induction k as [|k IH]; [exact Hi|].
    rewrite balance_after_S, month_closing_with.
    apply closing_zero_rate; [now exists s|exact IH].
  - induction k as [|k IH]; [now apply nnfin_NN|].
    rewrite balance_after_S, month_closing_with.
    apply closing_pos_rate; [now exists m, e|exact IH].
Qed.


Lemma Forall2_map_seq {A : Type} (R : A -> A -> Prop) (f g : nat -> A) a n :
  (forall y, (a <= y < a + n)%nat -> R (f y) (g y)) ->
  Forall2 R (map f (seq a n)) (map g (seq a n)).
Proof.
  revert a. induction n as [|n IH]; intros a H; cbn [seq map]; constructor.
  - apply H. lia.
  - apply IH. intros y Hy. apply H. lia.
Qed.




(** * More properties of the program *)

(** ** More on the order of numbers *)

Lemma SFleb_trans x y z :
  nn x -> nn y -> nn z -> SFleb x y = true -> SFleb y z = true ->
  SFleb x z = true.
Proof.
  intros Hx Hy Hz Hxy Hyz.
  destruct (nn_cases z Hz) as [Fz| ->]; [|apply SFleb_infinity, Hx].
  pose proof (SFleb_nnfin y z Hy Fz Hyz) as Fy.
  pose proof (SFleb_nnfin x y Hx Fy Hxy) as Fx.
  apply (rounds_to_le 1074 x (uval x) z (uval z)); [lia| | |].
  - now apply nnfin_rounds_to.
  - now apply nnfin_rounds_to.
  - pose proof (SFleb_uval x y Fx Fy Hxy). pose proof (SFleb_uval y z Fy Fz Hyz).
    lia.
Qed.

Lemma leb_trans a b c :
  NN a -> NN b -> NN c ->
  (a <=? b)%float = true -> (b <=? c)%float = true -> (a <=? c)%float = true.
Proof.
  intros Ha Hb Hc. rewrite !leb_spec.
  apply SFleb_trans; now apply NN_nn.
Qed.

Lemma leb_add_zero a : NN a -> (a <=? a + 0)%float = true.
Proof.
  intros H. rewrite leb_spec, add_spec. unfold NN in H.
  change (Prim2SF 0) with (S754_zero false).
  destruct (Prim2SF a) as [s|[]| |[] m e]; cbn in H; try contradiction.
  - destruct s; reflexivity.
  - reflexivity.
  - change (SF64add (S754_finite false m e) (S754_zero false))
      with (S754_finite false m e).
    unfold SFleb, SFcompare. now rewrite Z.compare_refl, Pos.compare_cont_refl.
Qed.

Lemma NN_leb_zero a : NN a -> (0 <=? a)%float = true.
Proof.
  intros H. rewrite leb_spec. change (Prim2SF 0) with (S754_zero false).
  now apply SFleb_zero.
Qed.

(** Adding a number that is not negative does not lower a number. *)
Lemma leb_add_r a b : NN a -> NN b -> NN (a + b) /\ (a <=? a + b)%float = true.
Proof.
  intros Ha Hb.
  destruct (add_le a a 0 b Ha Ha NN_zero Hb (leb_refl a Ha) (NN_leb_zero b Hb))
    as (H0 & Hab & Hle).
  split; [exact Hab|].
  apply (leb_trans a (a + 0) (a + b)); try assumption.
  now apply leb_add_zero.
Qed.

Lemma is_nan_mul_mono a a' c :
  NN a -> NN a' -> nnfin (Prim2SF c) -> (a <=? a')%float = true ->
  is_nan (a' * c) = false -> is_nan (a * c) = false.
Proof.
  intros Ha Ha' Hc. rewrite leb_spec, !is_nan_false, !mul_spec.
  intros Hle Hn. apply NN_nn in Ha, Ha'.
  destruct (nn_cases _ Ha) as [Fa|E].
  - pose proof (SFmul_rounds_to _ _ Fa Hc) as Hr.
    apply (rounds_to_shape 2148) in Hr; [|lia].
    intros E. rewrite E in Hr. exact Hr.
  - rewrite E in *. apply SFleb_infinity_l in Hle; [|exact Ha'].
    now rewrite <- Hle.
Qed.

(** One pass is monotone in the opening balance and in the deposit. *)
Lemma closing_with_mono d d' c f t :
  NN d -> NN d' -> (d <=? d')%float = true -> nnfin (Prim2SF c) ->
  NN f -> NN t -> (f <=? t)%float = true ->
  is_nan (closing_with d' c t) = false ->
  NN (closing_with d c f) /\ NN (closing_with d' c t)
  /\ (closing_with d c f <=? closing_with d' c t)%float = true.
Proof.
  intros Hd Hd' Hdd Hc Hf Ht Hle Hnt.
  apply closing_not_nan in Hnt as [_ Hit].
  destruct (add_le f t d d' Hf Ht Hd Hd' Hle Hdd) as (Haf & Hat & Hale).
  pose proof (is_nan_mul_mono _ _ c Haf Hat Hc Hale Hit) as Hif.
  destruct (mul_le (f + d) (t + d') c Haf Hat (nnfin_NN c Hc) Hale Hif Hit)
    as (Hif' & Hit' & Hile).
  unfold closing_with.
  exact (add_le _ _ _ _ Haf Hat Hif' Hit' Hale Hile).
Qed.

(** One pass does not lower the balance, and its interest is not negative. *)
Lemma closing_with_grows d c a :
  NN d -> NN c -> NN a -> is_nan (closing_with d c a) = false ->
  NN ((a + d) * c) /\ NN (closing_with d c a)
  /\ (a <=? closing_with d c a)%float = true.
Proof.
  intros Hd Hc Ha Hn. apply closing_not_nan in Hn as [_ Hi].
  destruct (leb_add_r a d Ha Hd) as [Had Hle1].
  destruct (mul_le (a + d) (a + d) c Had Had Hc (leb_refl _ Had) Hi Hi)
    as (Hi' & _ & _).
  unfold closing_with.
  destruct (leb_add_r (a + d) ((a + d) * c) Had Hi') as [Hcl Hle2].
  split; [exact Hi'|]. split; [exact Hcl|].
  exact (leb_trans _ _ _ Ha Had Hcl Hle1 Hle2).
Qed.

Lemma balance_after_not_nan d r n ob :
  is_nan (balance_after d r n ob) = false -> is_nan ob = false.
Proof.
  revert ob. induction n as [|n IH]; intros ob H; [exact H|].
  cbn [balance_after] in H. apply IH in H.
  rewrite month_closing_with in H. now apply closing_not_nan in H.
Qed.

Lemma nonneg_finite_NN v : nonneg_finite v = true -> NN v.
Proof. intros H. now apply nnfin_NN, nonneg_finite_nnfin. Qed.

(** Month after month the balance does not go down, as long as it is a
    number. *)
Lemma balance_after_grows d r n ob :
  nonneg_finite d = true -> nonneg_finite r = true -> NN ob ->
  is_nan (balance_after d r n ob) = false ->
  NN (balance_after d r n ob) /\ (ob <=? balance_after d r n ob)%float = true.
Proof.
  intros Hd Hr. pose proof (nnfin_NN _ (monthly_rate_nnfin r Hr)) as Hc.
  pose proof (nonneg_finite_NN d Hd) as Hd'.
  revert ob. induction n as [|n IH]; intros ob Hob Hn.
  - split; [exact Hob|now apply leb_refl].
  - cbn [balance_after] in *.
    pose proof (balance_after_not_nan _ _ _ _ Hn) as Hn1.
    rewrite month_closing_with in *.
    destruct (closing_with_grows d _ ob Hd' Hc Hob Hn1) as (_ & Hcl & Hle).
    destruct (IH _ Hcl Hn) as [Hb Hle2].
    split; [exact Hb|]. exact (leb_trans _ _ _ Hob Hcl Hb Hle Hle2).
Qed.

(** The interests of [n] months, added to a number that is not negative,
    give a number that is not negative, as long as the balance is a number. *)
Lemma sum_interests_NN d r n ob acc :
  nonneg_finite d = true -> nonneg_finite r = true -> NN ob -> NN acc ->
  is_nan (balance_after d r n ob) = false ->
  NN (sum_from acc (interests_from d r n ob)).
Proof.
  intros Hd Hr. pose proof (nnfin_NN _ (monthly_rate_nnfin r Hr)) as Hc.
  pose proof (nonneg_finite_NN d Hd) as Hd'.
  revert ob acc. induction n as [|n IH]; intros ob acc Hob Hacc Hn.
  - exact Hacc.
  - cbn [balance_after interests_from] in *. unfold sum_from. cbn [fold_left].
    fold (sum_from (acc + month_interest d r ob)
            (interests_from d r n (month_closing d r ob))).
    pose proof (balance_after_not_nan _ _ _ _ Hn) as Hn1.
    rewrite month_closing_with in Hn1.
    destruct (closing_with_grows d _ ob Hd' Hc Hob Hn1) as (Hi & Hcl & _).
    apply IH; [now rewrite month_closing_with| |exact Hn].
    destruct (leb_add_r acc (month_interest d r ob) Hacc Hi) as [H _].
    exact H.
Qed.

(** Monotone in the initial balance and in the deposit, month by month. *)
Lemma balance_after_mono d d' r ib ib' k :
  nonneg_finite d = true -> nonneg_finite d' = true ->
  (d <=? d')%float = true ->
  nonneg_finite r = true ->
  nonneg_finite ib = true -> nonneg_finite ib' = true ->
  (ib <=? ib')%float = true ->
  is_nan (balance_after d' r k ib') = false ->
  NN (balance_after d r k ib) /\ NN (balance_after d' r k ib')
  /\ (balance_after d r k ib <=? balance_after d' r k ib')%float = true.
Proof.
  intros Hd Hd' Hdd Hr Hib Hib' Hle.
  pose proof (monthly_rate_nnfin r Hr) as Hc.
  induction k as [|k IH]; intros Hn.
  - cbn [balance_after]. repeat split; try now apply nonneg_finite_NN.
    exact Hle.
  - rewrite !balance_after_S, !month_closing_with in *.
    pose proof (closing_not_nan _ _ _ Hn) as [Hk _].
    destruct (IH Hk) as (Hf & Ht & Hft).
    apply closing_with_mono; try assumption; now apply nonneg_finite_NN.
Qed.

(** ** The schedule: longer horizons, bounds, monotonicity *)

Lemma year_row_balance d r ib y :
  (1 <= y)%nat ->
  yearEndBalance (year_row d r ib y) = balance_after d r (12 * y) ib.
Proof.
  intros Hy. unfold year_row. cbn [yearEndBalance].
  rewrite <- balance_after_add. f_equal. lia.
Qed.

Lemma map_seq_offsets {A : Type} (f g : nat -> A) a a' n :
  (forall y, (y < n)%nat -> f (a + y)%nat = g (a' + y)%nat) ->
  map f (seq a n) = map g (seq a' n).
Proof.
  revert a a'. induction n as [|n IH]; intros a a' H; [reflexivity|].
  cbn [seq map]. f_equal.
  - specialize (H O ltac:(lia)). now rewrite !Nat.add_0_r in H.
  - apply IH. intros y Hy. specialize (H (S y) ltac:(lia)).
    now rewrite !Nat.add_succ_r in H.
Qed.

(** X1.  Asking for more years does not change the years already there: the
    schedule for [years] is the first [years] rows of the schedule for any
    longer horizon. *)
Theorem calculateSchedule_prefix :
  forall (initialInvestment monthlyDeposit annualInterestRate : float)
         (years : Z) (more : nat) (withDeposit : bool),
    firstn (Z.to_nat years)
      (App.calculateSchedule initialInvestment monthlyDeposit
         annualInterestRate (years + Z.of_nat more) withDeposit) =
    App.calculateSchedule initialInvestment monthlyDeposit annualInterestRate
      years withDeposit.
Proof.
  intros ib md r years more wd. rewrite !calculateSchedule_rows.
  destruct (Z.le_gt_cases 0 years) as [Hy|Hy].
  - replace (Z.to_nat (years + Z.of_nat more))
      with (Z.to_nat years + more)%nat by lia.
    rewrite seq_app, map_app, firstn_app, length_map, length_seq.
    rewrite Nat.sub_diag, firstn_all2 by (rewrite length_map, length_seq; lia).
    cbn [firstn]. apply app_nil_r.
  - replace (Z.to_nat years) with O by lia. reflexivity.
Qed.

(** X2.  Nothing but the balance crosses a year end.  The schedule for
    [a + b] years is the schedule for [a] years followed by the schedule for
    [b] years that starts from the last balance of the first (from the
    initial amount when [a = 0]), its years counted on from [a]. *)
Theorem calculateSchedule_restart :
  forall (initialInvestment monthlyDeposit annualInterestRate : float)
         (a b : nat) (withDeposit : bool),
    let first :=
      App.calculateSchedule initialInvestment monthlyDeposit annualInterestRate
        (Z.of_nat a) withDeposit in
    let carried := last (map yearEndBalance first) initialInvestment in
    App.calculateSchedule initialInvestment monthlyDeposit annualInterestRate
      (Z.of_nat a + Z.of_nat b) withDeposit =
    first ++
    map (shift_years (Z.of_nat a))
      (App.calculateSchedule carried monthlyDeposit annualInterestRate
         (Z.of_nat b) withDeposit).
Proof.
  intros ib md r a b wd first carried. subst first carried.
  rewrite !calculateSchedule_rows.
  set (d := deposit_of wd md).
  replace (Z.to_nat (Z.of_nat a + Z.of_nat b)) with (a + b)%nat by lia.
  rewrite !Nat2Z.id.
  assert (Hlast : last (map yearEndBalance (map (year_row d r ib) (seq 1 a))) ib
                  = balance_after d r (12 * a) ib).
  { destruct a as [|a]; [reflexivity|].
    rewrite seq_S, !map_app. cbn [map]. rewrite last_last.
    apply year_row_balance. lia. }
  rewrite Hlast, seq_app, map_app. f_equal.
  rewrite map_map. apply map_seq_offsets. intros y _.
  unfold shift_years, year_row. cbn [year yearEndBalance yearEndInterest].
  replace (12 * (1 + a + y - 1))%nat with (12 * a + 12 * (1 + y - 1))%nat by lia.
  rewrite balance_after_add. f_equal. lia.
Qed.

(** X3.  For finite amounts and a finite rate that are not negative, a
    [yearEndBalance] that is a number is [>= 0], and so is the
    [yearEndInterest] of its row; and without the deposit every balance and
    every interest is such a number (the run never meets NaN). *)
Theorem schedule_not_negative :
  forall (initialBalance monthlyDeposit annualRatePercent : float) (years : Z)
         (withDeposit : bool),
    nonneg_finite initialBalance = true ->
    nonneg_finite monthlyDeposit = true ->
    nonneg_finite annualRatePercent = true ->
    Forall
      (fun row =>
         is_nan (yearEndBalance row) = false ->
         (0 <=? yearEndBalance row)%float = true
         /\ (0 <=? yearEndInterest row)%float = true)
      (App.calculateSchedule initialBalance monthlyDeposit annualRatePercent
         years withDeposit)
    /\ Forall
         (fun row =>
            (0 <=? yearEndBalance row)%float = true
            /\ (0 <=? yearEndInterest row)%float = true)
         (App.calculateSchedule initialBalance monthlyDeposit
            annualRatePercent years false).
Proof.
  intros ib md r years wd Hib Hmd Hr.
  assert (Hd : nonneg_finite (deposit_of wd md) = true)
    by (destruct wd; [exact Hmd|reflexivity]).
  assert (Hgen : forall d y, nonneg_finite d = true ->
            is_nan (yearEndBalance (year_row d r ib y)) = false ->
            (0 <=? yearEndBalance (year_row d r ib y))%float = true
            /\ (0 <=? yearEndInterest (year_row d r ib y))%float = true).
  { intros d y Hd0 Hn. unfold year_row in *.
    cbn [yearEndBalance yearEndInterest] in *.
    pose proof (balance_after_not_nan _ _ _ _ Hn) as Hs.
    destruct (balance_after_grows d r _ ib Hd0 Hr (nonneg_finite_NN _ Hib) Hs)
      as [Hstart _].
    destruct (balance_after_grows d r 12 _ Hd0 Hr Hstart Hn) as [Hend _].
    split; apply NN_leb_zero; [exact Hend|].
    now apply sum_interests_NN. }
  split.
  - rewrite calculateSchedule_rows. apply Forall_map, Forall_forall.
    intros y _. now apply Hgen.
  - rewrite calculateSchedule_rows. cbn [deposit_of].
    apply Forall_map, Forall_forall. intros y _.
    apply Hgen; [reflexivity|].
    unfold year_row. cbn [yearEndBalance]. rewrite <- balance_after_add.
    apply NN_not_nan. now apply no_deposit_run_NN.
Qed.

Lemma ForallOrdPairs_map_seq {A : Type} (R : A -> A -> Prop) (f : nat -> A)
    a n :
  (forall i j, (a <= i < j)%nat -> (j < a + n)%nat -> R (f i) (f j)) ->
  ForallOrdPairs R (map f (seq a n)).
Proof.
  revert a. induction n as [|n IH]; intros a H; cbn [seq map]; constructor.
  - apply Forall_map, Forall_forall. intros j Hj. apply in_seq in Hj.
    apply H; lia.
  - apply IH. intros i j Hij Hj. apply H; lia.
Qed.

(** X4.  For finite amounts and a finite rate that are not negative, the
    balances do not go down: a year-end balance that is a number is [>=] the
    initial amount and [>=] every earlier year-end balance, and those are
    numbers too (a NaN, once there, stays). *)
Theorem balances_do_not_decrease :
  forall (initialBalance monthlyDeposit annualRatePercent : float) (years : Z)
         (withDeposit : bool),
    nonneg_finite initialBalance = true ->
    nonneg_finite monthlyDeposit = true ->
    nonneg_finite annualRatePercent = true ->
    Forall
      (fun a =>
         is_nan (yearEndBalance a) = false ->
         (initialBalance <=? yearEndBalance a)%float = true)
      (App.calculateSchedule initialBalance monthlyDeposit annualRatePercent
         years withDeposit)
    /\ ForallOrdPairs
         (fun a b =>
            is_nan (yearEndBalance b) = false ->
            is_nan (yearEndBalance a) = false
            /\ (yearEndBalance a <=? yearEndBalance b)%float = true)
         (App.calculateSchedule initialBalance monthlyDeposit
            annualRatePercent years withDeposit).
Proof.
  intros ib md r years wd Hib Hmd Hr.
  rewrite calculateSchedule_rows.
  set (d := deposit_of wd md).
  assert (Hd : nonneg_finite d = true)
    by (unfold d; destruct wd; [exact Hmd|reflexivity]).
  split.
  - apply Forall_map, Forall_forall. intros y Hy. apply in_seq in Hy.
    rewrite year_row_balance by lia. intros Hn.
    now apply balance_after_grows; [| |apply nonneg_finite_NN|].
  - apply ForallOrdPairs_map_seq. intros i j Hij _.
    rewrite !year_row_balance by lia. intros Hn.
    replace (12 * j)%nat with (12 * i + 12 * (j - i))%nat in * by lia.
    rewrite balance_after_add in *.
    pose proof (balance_after_not_nan _ _ _ _ Hn) as Hna.
    destruct (balance_after_grows d r _ ib Hd Hr (nonneg_finite_NN _ Hib) Hna)
      as [HNa _].
    destruct (balance_after_grows d r _ _ Hd Hr HNa Hn) as [_ Hle].
    split; assumption.
Qed.

(** X5.  The schedule is monotone in the initial amount and in the monthly
    deposit: with the same rate, years and flag, a smaller or equal initial
    amount and a smaller or equal deposit give, in every year where the
    larger run's balance is a number, a balance that is [<=] it. *)
Theorem schedule_monotone :
  forall (initialBalance initialBalance' monthlyDeposit monthlyDeposit'
          annualRatePercent : float) (years : Z) (withDeposit : bool),
    nonneg_finite initialBalance = true ->
    nonneg_finite initialBalance' = true ->
    nonneg_finite monthlyDeposit = true ->
    nonneg_finite monthlyDeposit' = true ->
    nonneg_finite annualRatePercent = true ->
    (initialBalance <=? initialBalance')%float = true ->
    (monthlyDeposit <=? monthlyDeposit')%float = true ->
    Forall2
      (fun lo hi =>
         year lo = year hi
         /\ (is_nan (yearEndBalance hi) = false ->
             (yearEndBalance lo <=? yearEndBalance hi)%float = true))
      (App.calculateSchedule initialBalance monthlyDeposit annualRatePercent
         years withDeposit)
      (App.calculateSchedule initialBalance' monthlyDeposit' annualRatePercent
         years withDeposit).
Proof.
  intros ib ib' md md' r years wd Hib Hib' Hmd Hmd' Hr Hle Hdle.
  rewrite !calculateSchedule_rows.
  apply Forall2_map_seq. intros y Hy.
  split; [reflexivity|].
  rewrite !year_row_balance by lia. intros Hn.
  apply balance_after_mono; try assumption.
  - destruct wd; [exact Hmd|reflexivity].
  - destruct wd; [exact Hmd'|reflexivity].
  - destruct wd; [exact Hdle|reflexivity].
Qed.

(** ** The gate, in full *)







(** X9.  The copies of [readInputs] and [runCalculation] in
    [src/unnamed/part_000] return what those of [src/app.js] return. *)
Theorem gate_copies_agree :
  forall initial monthly rate years : float,
    Part000Gate.readInputs initial monthly rate years =
    App.readInputs initial monthly rate years
    /\ Part000Gate.runCalculation initial monthly rate years =
       App.runCalculation initial monthly rate years.
Proof.
  intros i m r y. split; [reflexivity|].
  unfold Part000Gate.runCalculation, App.runCalculation.
  change (Part000Gate.readInputs i m r y) with (App.readInputs i m r y).
  destruct (App.readInputs i m r y); [reflexivity|].
  now rewrite !Part000_calculateSchedule_App.
Qed.

(** ** What [money] prints *)





(** ** Sorting an array *)

Section ArraySort.
Context {A : Type} (after : A -> A -> bool).

Lemma insert_perm x l : Permutation (ArrayPrototype.insert after x l) (x :: l).
Proof.
  induction l as [|y l IH]; cbn [ArrayPrototype.insert]; [reflexivity|].
  destruct (after x y); [|reflexivity].
  rewrite IH. apply perm_swap.
Qed.

Lemma sort_perm l : Permutation (ArrayPrototype.sort after l) l.
Proof.
  induction l as [|x l IH]; cbn; [constructor|].
  fold (ArrayPrototype.sort after l). rewrite insert_perm. now constructor.
Qed.

Lemma insert_first x l :
  Forall (fun y => after x y = false) l -> ArrayPrototype.insert after x l = x :: l.
Proof.
  intros H. destruct l as [|y l]; [reflexivity|].
  cbn [ArrayPrototype.insert]. inversion H as [|? ? Hy _]; subst. now rewrite Hy.
Qed.

Lemma sort_sorted_id l :
  StronglySorted (fun x y => after x y = false) l -> ArrayPrototype.sort after l = l.
Proof.
  induction 1 as [|x l Hs IH Hx]; [reflexivity|].
  cbn. fold (ArrayPrototype.sort after l). rewrite IH. now apply insert_first.
Qed.

Hypothesis after_asym : forall x y, after x y = true -> after y x = false.
Hypothesis before_trans :
  forall x y z, after x y = false -> after y z = false -> after x z = false.

Lemma insert_sorted x l :
  StronglySorted (fun a b => after a b = false) l ->
  StronglySorted (fun a b => after a b = false) (ArrayPrototype.insert after x l).
Proof.
  induction 1 as [|y l Hs IH Hy]; cbn [ArrayPrototype.insert].
  - constructor; constructor.
  - destruct (after x y) eqn:E.
    + constructor; [exact IH|].
      eapply Permutation_Forall; [symmetry; apply insert_perm|].
      constructor; [now apply after_asym|exact Hy].
    + constructor; [now constructor|].
      constructor; [exact E|].
      eapply Forall_impl; [|exact Hy]. intros z Hz. cbn in Hz.
      now apply (before_trans x y z).
Qed.

Lemma sort_sorted l :
  StronglySorted (fun a b => after a b = false) (ArrayPrototype.sort after l).
Proof.
  induction l as [|x l IH]; cbn; [constructor|].
  now apply insert_sorted.
Qed.

End ArraySort.

(** ** Saved scenarios *)

Lemma sortByDateDesc_investments s :
  investments (Scenarios.sortByDateDesc s) =
  ArrayPrototype.sort date_after (investments s).
Proof. reflexivity. Qed.

Lemma date_sorted_iff l :
  StronglySorted (fun a b => date_after a b = false) l <->
  StronglySorted (fun a b => createdAt b <= createdAt a) l.
Proof.
  split; induction 1 as [|x l Hs IH Hx]; constructor; try assumption;
    (eapply Forall_impl; [|exact Hx]); intros y; unfold date_after; cbn;
    rewrite Z.ltb_ge; lia.
Qed.

Lemma date_sort_sorted l :
  StronglySorted (fun a b => date_after a b = false)
    (ArrayPrototype.sort date_after l).
Proof.
  apply sort_sorted; unfold date_after; intros x y.
  - rewrite Z.ltb_lt, Z.ltb_ge. lia.
  - intros z. rewrite !Z.ltb_ge. lia.
Qed.

(** Stability: the scenarios of one instant keep their order. *)
Lemma insert_filter_date t x l :
  filter (fun y => createdAt y =? t) (ArrayPrototype.insert date_after x l) =
  filter (fun y => createdAt y =? t) (x :: l).
Proof.
  induction l as [|y l IH]; [reflexivity|].
  cbn [ArrayPrototype.insert]. destruct (date_after x y) eqn:E; [|reflexivity].
  cbn [filter] in *. rewrite IH.
  unfold date_after in E. apply Z.ltb_lt in E.
  destruct (Z.eqb_spec (createdAt x) t), (Z.eqb_spec (createdAt y) t);
    try reflexivity. lia.
Qed.

Lemma sort_filter_date t l :
  filter (fun y => createdAt y =? t) (ArrayPrototype.sort date_after l) =
  filter (fun y => createdAt y =? t) l.
Proof.
  induction l as [|x l IH]; [reflexivity|].
  cbn [ArrayPrototype.sort fold_right].
  fold (ArrayPrototype.sort date_after l).
  rewrite insert_filter_date. cbn [filter]. now rewrite IH.
Qed.

(** X12.  [sortByDateDesc] leaves a permutation of the list, newest first,
    in which the scenarios of one instant keep the order they had; sorting
    again changes nothing, and [nextId] and the stored list are untouched. *)
Theorem sortByDateDesc_sorts :
  forall s : Session,
    Permutation (investments (Scenarios.sortByDateDesc s)) (investments s)
    /\ StronglySorted (fun a b => createdAt b <= createdAt a)
         (investments (Scenarios.sortByDateDesc s))
    /\ (forall t,
          filter (fun x => createdAt x =? t)
            (investments (Scenarios.sortByDateDesc s)) =
          filter (fun x => createdAt x =? t) (investments s))
    /\ Scenarios.sortByDateDesc (Scenarios.sortByDateDesc s) = Scenarios.sortByDateDesc s
    /\ nextId (Scenarios.sortByDateDesc s) = nextId s
    /\ stored (Scenarios.sortByDateDesc s) = stored s.
Proof.
  intros s. rewrite sortByDateDesc_investments.
  split; [apply sort_perm|].
  split; [apply date_sorted_iff, date_sort_sorted|].
  split; [intros t; apply sort_filter_date|].
  split; [|split; reflexivity].
  unfold Scenarios.sortByDateDesc. cbn [investments nextId usingDatabase stored].
  f_equal. apply sort_sorted_id, date_sort_sorted.
Qed.


Lemma fold_max_bounds l m0 :
  m0 <= fold_left (fun m x => Z.max m (inv_id x)) l m0
  /\ Forall
       (fun x => inv_id x <= fold_left (fun m x => Z.max m (inv_id x)) l m0) l
  /\ (fold_left (fun m x => Z.max m (inv_id x)) l m0 = m0
      \/ exists x,
           In x l /\ inv_id x = fold_left (fun m x => Z.max m (inv_id x)) l m0).
Proof.
  revert m0. induction l as [|y l IH]; intros m0; cbn [fold_left].
  - split; [lia|]. split; [constructor|now left].
  - destruct (IH (Z.max m0 (inv_id y))) as (H1 & H2 & H3).
    set (m := fold_left (fun m x => Z.max m (inv_id x)) l (Z.max m0 (inv_id y)))
      in *.
    split; [lia|]. split; [constructor; [lia|exact H2]|].
    destruct H3 as [H3|[x [Hin Hx]]].
    + destruct (Z.max_spec m0 (inv_id y)) as [[_ E]|[_ E]].
      * right. exists y. split; [now left|lia].
      * left. lia.
    + right. exists x. split; [now right|exact Hx].
Qed.

(** X14.  After [syncNextIdFromInvestments], [nextId] is at least 1 and
    above every id of the list, and it is the least such number: 1, or one
    more than an id of the list. *)
Theorem syncNextIdFromInvestments_fresh :
  forall s : Session,
    fresh_ids (Scenarios.syncNextIdFromInvestments s)
    /\ investments (Scenarios.syncNextIdFromInvestments s) = investments s
    /\ (nextId (Scenarios.syncNextIdFromInvestments s) = 1
        \/ exists x, In x (investments s)
                     /\ nextId (Scenarios.syncNextIdFromInvestments s) = inv_id x + 1).
Proof.
  intros s. unfold Scenarios.syncNextIdFromInvestments, fresh_ids.
  cbn [investments nextId].
  destruct (fold_max_bounds (investments s) 0) as (H1 & H2 & H3).
  split; [split; [lia|]|split; [reflexivity|]].
  - eapply Forall_impl; [|exact H2]. intros x Hx. cbn in Hx. lia.
  - destruct H3 as [->|[x [Hin Hx]]]; [now left|right].
    exists x. split; [exact Hin|lia].
Qed.







(** ** The sign of a difference *)

Lemma binary_round_aux_sign sx mz ez lz :
  0 <= mz -> has_sign sx (binary_round_aux prec emax sx mz ez lz).
Proof.
  intros Hm. unfold binary_round_aux.
  pose proof (first_shift mz ez lz Hm) as H1.
  destruct (shr_fexp prec emax mz ez lz) as [mrs e1].
  destruct H1 as [Hq He1].
  pose proof (round_nearest_even_bounds (shr_m mrs) (loc_of_shr_record mrs))
    as Hr.
  set (m1 := round_nearest_even (shr_m mrs) (loc_of_shr_record mrs)) in *.
  assert (He1' : -1074 <= e1) by (unfold fexp64 in He1; lia).
  pose proof (second_shift m1 e1 ltac:(lia) He1') as H2.
  destruct (shr_fexp prec emax m1 e1 loc_Exact) as [mrs2 e2].
  apply (f_equal fst) in H2. cbn [fst] in H2.
  pose proof (norm64_fst_nonneg m1 e1 ltac:(lia)) as Hn. rewrite <- H2 in Hn.
  destruct (shr_m mrs2) as [|p|p]; [reflexivity| |lia].
  destruct (e2 <=? emax - prec); reflexivity.
Qed.

Lemma round64_positive m e :
  0 < m -> -1074 <= e -> 0 <= fexp64 (Zdigits2 m + e) - e ->
  SFltb (S754_zero false) (round64 m e) = true.
Proof.
  intros Hm He Hk. unfold round64. cbv zeta.
  set (k := fexp64 (Zdigits2 m + e) - e) in *.
  assert (Hpos : 0 < rnd k m).
  { destruct (Z.eq_dec k 0) as [->|Hk0]; [now rewrite rnd_0|].
    assert (Hkd : k = Zdigits2 m - 53) by (unfold k, fexp64 in *; lia).
    pose proof (Zdigits2_bounds m Hm) as [Hlo _].
    pose proof (pow2_pos 52 ltac:(lia)).
    enough (2 ^ 52 <= rnd k m) by lia.
    apply rnd_lower; [lia|]. rewrite <- Z.pow_add_r by lia.
    replace (k + 52) with (Zdigits2 m - 1) by lia. exact Hlo. }
  unfold norm64, pack64.
  destruct (rnd k m =? 2 ^ 53); cbn [fst snd].
  - destruct (_ <=? 971); reflexivity.
  - destruct (rnd k m) as [|p|p]; [lia| |lia].
    destruct (_ <=? 971); reflexivity.
Qed.

Lemma SFltb_zero_negative x :
  has_sign true x -> SFltb (S754_zero false) x = false.
Proof. destruct x as [s|s| |s m e]; cbn; intros H; subst; tauto || reflexivity. Qed.

(** What [binary_round] rounds is positive and at least [2^-1074]: the
    result is positive. *)
Lemma binary_round_positive p e :
  -1074 <= e ->
  SFltb (S754_zero false) (binary_round prec emax false p e) = true.
Proof.
  intros He. unfold binary_round. rewrite fexp_fexp64.
  set (e' := fexp64 (Z.pos (digits2_pos p) + e)).
  destruct (Z.le_gt_cases e e') as [Hle|Hgt].
  - rewrite shl_align_none by exact Hle.
    rewrite binary_round_aux_round64 by (fold e'; lia).
    apply round64_positive; [lia|exact He|cbn [Zdigits2]; fold e'; lia].
  - unfold shl_align. destruct (e' - e) as [|d|d] eqn:E; try lia.
    assert (Hd : Zdigits2 (Z.pos (Pos.iter xO p d)) = Z.pos (digits2_pos p) + Z.pos d).
    { rewrite iter_xO. apply (Zdigits2_shift (Z.pos p)); lia. }
    assert (Hk : fexp64 (Zdigits2 (Z.pos (Pos.iter xO p d)) + e') = e').
    { rewrite Hd.
      replace (Z.pos (digits2_pos p) + Z.pos d + e')
        with (Z.pos (digits2_pos p) + e) by lia.
      reflexivity. }
    rewrite binary_round_aux_round64 by (cbn [Zdigits2] in Hk; lia).
    apply round64_positive; [lia|unfold e', fexp64; lia|lia].
Qed.

(** The sign of a difference of two finite numbers that are not negative. *)
Theorem SFsub_sign x y :
  nnfin x -> nnfin y ->
  SFltb (S754_zero false) (SF64sub x y) = (uval y <? uval x).
Proof.
  intros [Hvx Hsx] [Hvy Hsy].
  destruct x as [sx|sx| |[] mx ex]; cbn in Hsx; try contradiction;
    destruct y as [sy|sy| |[] my ey]; cbn in Hsy; try contradiction.
  - destruct sx, sy; reflexivity.
  - pose proof (uval_pos _ _ _ Hvy) as Hp.
    transitivity false; [reflexivity|]. symmetry. apply Z.ltb_ge.
    cbn [uval] in *. lia.
  - pose proof (uval_pos _ _ _ Hvx) as Hp.
    transitivity true; [reflexivity|]. symmetry. apply Z.ltb_lt. exact Hp.
  - pose proof (valid_finite _ _ _ Hvx) as [Hfx Hex].
    pose proof (valid_finite _ _ _ Hvy) as [Hfy Hey].
    assert (Hlx : -1074 <= ex) by (unfold fexp64 in Hfx; lia).
    assert (Hly : -1074 <= ey) by (unfold fexp64 in Hfy; lia).
    unfold SF64sub, SFsub. cbv zeta. cbn [cond_Zopp].
    set (ez := Z.min ex ey).
    rewrite !shl_align_fst by (unfold ez; lia).
    set (D := Z.pos mx * 2 ^ (ex - ez) - Z.pos my * 2 ^ (ey - ez)).
    assert (HD : uval (S754_finite false mx ex) - uval (S754_finite false my ey)
                 = D * 2 ^ (ez + 1074)).
    { cbn [uval]. unfold D. rewrite Z.mul_sub_distr_r, <- !Z.mul_assoc.
      rewrite <- !Z.pow_add_r by (unfold ez; lia).
      f_equal; do 2 f_equal; lia. }
    pose proof (pow2_pos (ez + 1074) ltac:(unfold ez; lia)) as HP.
    destruct D as [|p|p] eqn:ED; unfold binary_normalize.
    + symmetry. apply Z.ltb_ge. lia.
    + rewrite binary_round_positive by (unfold ez; lia).
      symmetry. apply Z.ltb_lt. nia.
    + rewrite SFltb_zero_negative.
      * symmetry. apply Z.ltb_ge. nia.
      * unfold binary_round.
        destruct (shl_align p ez _) as [mz e']. apply binary_round_aux_sign. lia.
Qed.

(** ** Sorting by amount *)

Lemma insert_ext {A : Type} (after after' : A -> A -> bool) x l :
  (forall y, In y l -> after x y = after' x y) ->
  ArrayPrototype.insert after x l = ArrayPrototype.insert after' x l.
Proof.
  induction l as [|y l IH]; intros H; [reflexivity|].
  cbn [ArrayPrototype.insert]. rewrite <- (H y (or_introl eq_refl)).
  rewrite IH; [reflexivity|]. intros z Hz. apply H. now right.
Qed.

Lemma sort_ext {A : Type} (after after' : A -> A -> bool) l :
  (forall x y, In x l -> In y l -> after x y = after' x y) ->
  ArrayPrototype.sort after l = ArrayPrototype.sort after' l.
Proof.
  induction l as [|x l IH]; intros H; [reflexivity|].
  cbn [ArrayPrototype.sort fold_right].
  fold (ArrayPrototype.sort after l). fold (ArrayPrototype.sort after' l).
  rewrite <- IH by (intros a b Ha Hb; apply H; now right).
  apply insert_ext. intros y Hy. apply H; [now left|right].
  eapply Permutation_in; [apply sort_perm|exact Hy].
Qed.

Lemma StronglySorted_impl_in {A : Type} (R R' : A -> A -> Prop) l :
  (forall a b, In a l -> In b l -> R a b -> R' a b) ->
  StronglySorted R l -> StronglySorted R' l.
Proof.
  intros H Hs. induction Hs as [|x l Hs IH Hx]; constructor.
  - apply IH. intros a b Ha Hb. apply H; now right.
  - rewrite Forall_forall in *. intros y Hy.
    apply H; [now left|now right|now apply Hx].
Qed.

Lemma amount_after_key a b :
  nonneg_finite (inv_initial a) = true ->
  nonneg_finite (inv_initial b) = true ->
  amount_after a b = (amount_key a <? amount_key b).
Proof.
  intros Ha Hb. unfold amount_after, amount_key.
  rewrite ltb_spec, sub_spec. change (Prim2SF 0) with (S754_zero false).
  apply SFsub_sign; now apply nonneg_finite_nnfin.
Qed.

Lemma amount_key_leb a b :
  nonneg_finite (inv_initial a) = true ->
  nonneg_finite (inv_initial b) = true ->
  amount_key b <= amount_key a ->
  (inv_initial b <=? inv_initial a)%float = true.
Proof.
  intros Ha Hb H. rewrite leb_spec.
  apply (rounds_to_le 1074 _ (amount_key b) _ (amount_key a)); [lia| | |exact H];
    now apply nnfin_rounds_to, nonneg_finite_nnfin.
Qed.

(** X18.  When every saved amount is finite and not negative,
    [sortByInitialDesc] leaves the list sorted by amount, largest first. *)
Theorem sortByInitialDesc_sorts :
  forall s : Session,
    Forall (fun x => nonneg_finite (inv_initial x) = true) (investments s) ->
    StronglySorted
      (fun a b => (inv_initial b <=? inv_initial a)%float = true)
      (investments (Scenarios.sortByInitialDesc s)).
Proof.
  intros s Hf. unfold Scenarios.sortByInitialDesc. cbn [investments].
  fold amount_after.
  rewrite (sort_ext amount_after (fun a b => amount_key a <? amount_key b)).
  2:{ rewrite Forall_forall in Hf. intros x y Hx Hy.
      apply amount_after_key; now apply Hf. }
  set (l := ArrayPrototype.sort _ (investments s)).
  assert (Hl : Forall (fun x => nonneg_finite (inv_initial x) = true) l).
  { eapply Permutation_Forall; [symmetry; apply sort_perm|exact Hf]. }
  apply (StronglySorted_impl_in
           (fun a b => (amount_key a <? amount_key b) = false)).
  - rewrite Forall_forall in Hl. intros a b Ha Hb H.
    apply Z.ltb_ge in H. apply amount_key_leb; auto.
  - apply sort_sorted.
    + intros x y. rewrite Z.ltb_lt, Z.ltb_ge. lia.
    + intros x y z. rewrite !Z.ltb_ge. lia.
Qed.

(** X19.  The logout handler (and the page load without a session) leaves a
    local session that holds exactly the stored scenarios, newest first,
    with [nextId] above every id; when nothing is stored the list is empty
    and ids start again at 1. *)
Theorem logoutClick_local :
  forall s : Session,
    usingDatabase (Scenarios.logoutClick s) = false
    /\ Permutation (investments (Scenarios.logoutClick s))
         (Scenarios.loadLocalInvestments s)
    /\ StronglySorted (fun a b => createdAt b <= createdAt a)
         (investments (Scenarios.logoutClick s))
    /\ fresh_ids (Scenarios.logoutClick s)
    /\ stored (Scenarios.logoutClick s) = stored s
    /\ (stored s = None ->
        investments (Scenarios.logoutClick s) = []
        /\ nextId (Scenarios.logoutClick s) = 1).
Proof.
  intros s. unfold Scenarios.logoutClick. cbv zeta.
  rewrite sortByDateDesc_investments.
  unfold Scenarios.sortByDateDesc, Scenarios.syncNextIdFromInvestments,
    fresh_ids.
  cbn [investments nextId usingDatabase stored].
  set (l := Scenarios.loadLocalInvestments _).
  destruct (fold_max_bounds l 0) as (H1 & H2 & _).
  split; [reflexivity|]. split; [apply sort_perm|].
  split; [apply date_sorted_iff, date_sort_sorted|].
  split; [|split; [reflexivity|]].
  - split; [lia|].
    eapply Permutation_Forall; [symmetry; apply sort_perm|].
    eapply Forall_impl; [|exact H2]. intros x Hx. cbn in Hx. lia.
  - intros E. unfold l, Scenarios.loadLocalInvestments. cbn [stored].
    rewrite E. split; reflexivity.
Qed.

(** ** Instances *)

Lemma schedule_not_negative_witness :
  nonneg_finite 1000 = true /\ nonneg_finite 100 = true
  /\ nonneg_finite 5 = true
  /\ Forall
       (fun row =>
          is_nan (yearEndBalance row) = false ->
          (0 <=? yearEndBalance row)%float = true
          /\ (0 <=? yearEndInterest row)%float = true)
       (App.calculateSchedule 1000 100 5 5 true).
Proof.
  split; [reflexivity|]. split; [reflexivity|]. split; [reflexivity|].
  apply (schedule_not_negative 1000 100 5 5 true); reflexivity.
Defined.

Lemma balances_do_not_decrease_witness :
  nonneg_finite 1000 = true /\ nonneg_finite 100 = true
  /\ nonneg_finite 5 = true
  /\ ForallOrdPairs
       (fun a b =>
          is_nan (yearEndBalance b) = false ->
          is_nan (yearEndBalance a) = false
          /\ (yearEndBalance a <=? yearEndBalance b)%float = true)
       (App.calculateSchedule 1000 100 5 5 true).
Proof.
  split; [reflexivity|]. split; [reflexivity|]. split; [reflexivity|].
  apply (balances_do_not_decrease 1000 100 5 5 true); reflexivity.
Defined.

Lemma schedule_monotone_witness :
  nonneg_finite 1000 = true /\ nonneg_finite 2000 = true
  /\ nonneg_finite 100 = true /\ nonneg_finite 150 = true
  /\ nonneg_finite 5 = true
  /\ (1000 <=? 2000)%float = true /\ (100 <=? 150)%float = true
  /\ Forall2
       (fun lo hi =>
          year lo = year hi
          /\ (is_nan (yearEndBalance hi) = false ->
              (yearEndBalance lo <=? yearEndBalance hi)%float = true))
       (App.calculateSchedule 1000 100 5 5 true)
       (App.calculateSchedule 2000 150 5 5 true).
Proof.
  repeat (split; [reflexivity|]).
  apply (schedule_monotone 1000 2000 100 150 5 5 true); reflexivity.
Defined.









Lemma sample_session_amounts :
  Forall (fun x => nonneg_finite (inv_initial x) = true)
    (investments sample_session).
Proof. repeat constructor. Defined.

Lemma sortByInitialDesc_sorts_witness :
  Forall (fun x => nonneg_finite (inv_initial x) = true)
    (investments sample_session)
  /\ StronglySorted
       (fun a b => (inv_initial b <=? inv_initial a)%float = true)
       (investments (Scenarios.sortByInitialDesc sample_session)).
Proof.
  split; [exact sample_session_amounts|].
  exact (sortByInitialDesc_sorts sample_session sample_session_amounts).
Defined.
